(** * SolarSystem: the mesh generators, the orbital transforms, the
      simulation clock and the camera of [main.cpp]

    Conventions of the embedding.
    - [int] values are [Z].  The program only forms small integers (loop
      counters, vertex indices, the focus index); signed overflow is
      undefined in C++, so no wrap-around exists to be written out, and the
      one conversion that is defined, [(int)idx.size()], is written out in
      [int_of_size].  The operator [%] is [Z.rem] (truncation toward zero).
    - [float] and [double] values are read as real numbers ([R]): every
      operation of the source is kept, in its order, and rounding is not
      modelled.  A quotient by zero is outside this reading (the source gets
      a NaN there); the places where it happens are pointed out.
    - [std::vector] is [list], [push_back] appends at the end.
    - The OpenGL, GLFW and stb calls are left out: they neither read nor
      write the values modelled here. *)

From Stdlib Require Import ZArith List Bool Reals Lra Lia.
Import ListNotations.

Open Scope Z_scope.

(** ** The part of GLM that the program calls *)
Module Glm.

#[local] Open Scope R_scope.

Record vec2 : Set := mkVec2 { ux : R; uy : R }.
Record vec3 : Set := mkVec3 { vx : R; vy : R; vz : R }.
Record vec4 : Set := mkVec4 { wx : R; wy : R; wz : R; ww : R }.

(** Column-major, as [glm::mat4]: [col0 m] is [m[0]]. *)
Record mat4 : Set := mkMat4 { col0 : vec4; col1 : vec4; col2 : vec4; col3 : vec4 }.

Definition vadd (a b : vec3) : vec3 :=
  mkVec3 (vx a + vx b) (vy a + vy b) (vz a + vz b).
Definition vsub (a b : vec3) : vec3 :=
  mkVec3 (vx a - vx b) (vy a - vy b) (vz a - vz b).
(** [v * s] and [s * v] *)
Definition vscale (s : R) (a : vec3) : vec3 :=
  mkVec3 (s * vx a) (s * vy a) (s * vz a).
Definition dot (a b : vec3) : R := vx a * vx b + vy a * vy b + vz a * vz b.
Definition cross (a b : vec3) : vec3 :=
  mkVec3 (vy a * vz b - vz a * vy b)
         (vz a * vx b - vx a * vz b)
         (vx a * vy b - vy a * vx b).
(** [glm::normalize(v) = v * inversesqrt(dot(v, v))] *)
Definition normalize (a : vec3) : vec3 := vscale (/ sqrt (dot a a)) a.

Definition vadd4 (a b : vec4) : vec4 :=
  mkVec4 (wx a + wx b) (wy a + wy b) (wz a + wz b) (ww a + ww b).
Definition vscale4 (s : R) (a : vec4) : vec4 :=
  mkVec4 (s * wx a) (s * wy a) (s * wz a) (s * ww a).

(** [glm::mat4(1)] *)
Definition mat4_identity : mat4 :=
  mkMat4 (mkVec4 1 0 0 0) (mkVec4 0 1 0 0) (mkVec4 0 0 1 0) (mkVec4 0 0 0 1).

(** [m * v] for a column vector [v] *)
Definition mat4_apply (m : mat4) (v : vec4) : vec4 :=
  vadd4 (vadd4 (vscale4 (wx v) (col0 m)) (vscale4 (wy v) (col1 m)))
        (vadd4 (vscale4 (wz v) (col2 m)) (vscale4 (ww v) (col3 m))).

(** [glm::translate(m, v)]: [Result[3] = m[0]*v[0] + m[1]*v[1] + m[2]*v[2] + m[3]] *)
Definition translate (m : mat4) (v : vec3) : mat4 :=
  mkMat4 (col0 m) (col1 m) (col2 m)
         (vadd4 (vadd4 (vadd4 (vscale4 (vx v) (col0 m)) (vscale4 (vy v) (col1 m)))
                       (vscale4 (vz v) (col2 m)))
                (col3 m)).

(** [glm::rotate(m, angle, v)] *)
Definition rotate (m : mat4) (angle : R) (v : vec3) : mat4 :=
  let c := cos angle in
  let s := sin angle in
  let axis := normalize v in
  let temp := vscale (1 - c) axis in
  let r00 := c + vx temp * vx axis in
  let r01 := vx temp * vy axis + s * vz axis in
  let r02 := vx temp * vz axis - s * vy axis in
  let r10 := vy temp * vx axis - s * vz axis in
  let r11 := c + vy temp * vy axis in
  let r12 := vy temp * vz axis + s * vx axis in
  let r20 := vz temp * vx axis + s * vy axis in
  let r21 := vz temp * vy axis - s * vx axis in
  let r22 := c + vz temp * vz axis in
  mkMat4
    (vadd4 (vadd4 (vscale4 r00 (col0 m)) (vscale4 r01 (col1 m))) (vscale4 r02 (col2 m)))
    (vadd4 (vadd4 (vscale4 r10 (col0 m)) (vscale4 r11 (col1 m))) (vscale4 r12 (col2 m)))
    (vadd4 (vadd4 (vscale4 r20 (col0 m)) (vscale4 r21 (col1 m))) (vscale4 r22 (col2 m)))
    (col3 m).

(** [glm::radians(degrees)] *)
Definition radians (degrees : R) : R := degrees * (PI / 180).

(** [glm::min(x, y) = (y < x) ? y : x], [glm::max(x, y) = (x < y) ? y : x];
    [std::min] and [std::max] decide the same way. *)
Definition fmin (x y : R) : R := if Rlt_dec y x then y else x.
Definition fmax (x y : R) : R := if Rlt_dec x y then y else x.

(** [glm::clamp(x, minVal, maxVal) = min(max(x, minVal), maxVal)] *)
Definition clamp (x minVal maxVal : R) : R := fmin (fmax x minVal) maxVal.

(** [glm::scale(m, v)] *)
Definition scale (m : mat4) (v : vec3) : mat4 :=
  mkMat4 (vscale4 (vx v) (col0 m)) (vscale4 (vy v) (col1 m))
         (vscale4 (vz v) (col2 m)) (col3 m).

(** [glm::ortho(left, right, bottom, top)] *)
Definition ortho (left right bottom top : R) : mat4 :=
  mkMat4 (mkVec4 (2 / (right - left)) 0 0 0)
         (mkVec4 0 (2 / (top - bottom)) 0 0)
         (mkVec4 0 0 (-1) 0)
         (mkVec4 (- (right + left) / (right - left))
                 (- (top + bottom) / (top - bottom)) 0 1).

(** [m1 * m2] *)
Definition mat4_mul (m1 m2 : mat4) : mat4 :=
  mkMat4 (mat4_apply m1 (col0 m2)) (mat4_apply m1 (col1 m2))
         (mat4_apply m1 (col2 m2)) (mat4_apply m1 (col3 m2)).

End Glm.

(** ** MESHES *)
Module MeshFactory.

Import Glm.

Record Vtx : Set := mkVtx { p : vec3; n : vec3; uv : vec2 }.

(** What a generator hands to the GPU: the two vectors it filled, and the
    [indexCount] it stores in the returned [Mesh]. *)
Record MeshData (V : Type) : Type :=
  mkMeshData { vertices : list V; indices : list Z; indexCount : Z }.
Arguments mkMeshData {V} _ _ _.
Arguments vertices {V} _.
Arguments indices {V} _.
Arguments indexCount {V} _.

Definition push_back {A : Type} (l : list A) (x : A) : list A := l ++ [x].

(** [v.size()] *)
Definition size {A : Type} (l : list A) : Z := Z.of_nat (length l).

(** [(int)idx.size()] *)
Definition int_of_size (len : nat) : Z :=
  (Z.of_nat len + 2 ^ 31) mod 2 ^ 32 - 2 ^ 31.

(** [count] rounds of a loop body, the counter starting at [i] and stepping
    by one. *)
Fixpoint loop {S : Type} (count : nat) (i : Z) (body : Z -> S -> S) (s : S) : S :=
  match count with
  | O => s
  | Datatypes.S k => loop k (i + 1) body (body i s)
  end.

(** [for (int i = 0; i < bound; ++i) body] *)
Definition for_lt {S : Type} (bound : Z) (body : Z -> S -> S) (s : S) : S :=
  loop (Z.to_nat bound) 0 body s.

(** [for (int i = 0; i <= bound; ++i) body] *)
Definition for_le {S : Type} (bound : Z) (body : Z -> S -> S) (s : S) : S :=
  loop (Z.to_nat (bound + 1)) 0 body s.

(** [(float)i / n] *)
Definition fraction (i n : Z) : R := (IZR i / IZR n)%R.

Definition sphere_vertices (stacks slices : Z) (r : R) : list Vtx :=
  for_le stacks (fun i v =>
    let fv := fraction i stacks in
    let phi := (fv * PI)%R in
    let y := cos phi in
    let rr := sin phi in
    for_le slices (fun j v =>
      let fu := fraction j slices in
      let th := (fu * (2 * PI))%R in
      let x := (rr * cos th)%R in
      let z := (rr * sin th)%R in
      let n := normalize (mkVec3 x y z) in
      push_back v (mkVtx (vscale r (mkVec3 x y z)) n (mkVec2 fu (1 - fv)%R))) v) [].

Definition sphere_indices (stacks slices : Z) : list Z :=
  for_lt stacks (fun i idx =>
    for_lt slices (fun j idx =>
      let r1 := i * (slices + 1) in
      let r2 := (i + 1) * (slices + 1) in
      let idx := push_back idx (r1 + j) in
      let idx := push_back idx (r2 + j) in
      let idx := push_back idx (r2 + j + 1) in
      let idx := push_back idx (r1 + j) in
      let idx := push_back idx (r2 + j + 1) in
      push_back idx (r1 + j + 1)) idx) [].

Definition buildSphere (stacks slices : Z) (r : R) : MeshData Vtx :=
  let v := sphere_vertices stacks slices r in
  let idx := sphere_indices stacks slices in
  mkMeshData v idx (int_of_size (length idx)).

(** The ring fills both vectors in one loop. *)
Definition buildRing (segments : Z) (innerR outerR : R) : MeshData Vtx :=
  let '(v, idx) :=
    for_le segments (fun i '(v, idx) =>
      let u := fraction i segments in
      let th := (u * (2 * PI))%R in
      let c := cos th in
      let s := sin th in
      let v := push_back v (mkVtx (mkVec3 (outerR * c) 0 (outerR * s))
                                  (mkVec3 0 1 0) (mkVec2 u 1))%R in
      let v := push_back v (mkVtx (mkVec3 (innerR * c) 0 (innerR * s))
                                  (mkVec3 0 1 0) (mkVec2 u 0))%R in
      if i <? segments then
        let b := i * 2 in
        let idx := push_back idx b in
        let idx := push_back idx (b + 1) in
        let idx := push_back idx (b + 2) in
        let idx := push_back idx (b + 1) in
        let idx := push_back idx (b + 3) in
        (v, push_back idx (b + 2))
      else (v, idx)) ([], []) in
  mkMeshData v idx (int_of_size (length idx)).

Definition buildOrbitLine (segments : Z) (r : R) : MeshData vec3 :=
  let '(p, idx) :=
    for_lt segments (fun i '(p, idx) =>
      let u := fraction i segments in
      let th := (u * (2 * PI))%R in
      let p := push_back p (mkVec3 (r * cos th) 0 (r * sin th))%R in
      let idx := push_back idx i in
      (p, push_back idx (Z.rem (i + 1) segments))) ([], []) in
  mkMeshData p idx (int_of_size (length idx)).

(** The generator calls of [main], with their count arguments. *)
Inductive MeshCall : Set :=
| CallSphere (stacks slices : Z)
| CallRing (segments : Z)
| CallOrbitLine (segments : Z).

Definition main_mesh_calls : list MeshCall :=
  [ CallSphere 48 96; CallSphere 40 80; CallSphere 32 64; CallSphere 28 56;
    CallSphere 48 96; CallRing 256; CallSphere 24 48; CallOrbitLine 128;
    CallOrbitLine 256; CallOrbitLine 256; CallOrbitLine 256; CallOrbitLine 256;
    CallOrbitLine 256; CallOrbitLine 256; CallOrbitLine 256; CallOrbitLine 256;
    CallSphere 44 88; CallSphere 44 88 ].

End MeshFactory.

(** ** PLANET, and the bodies and model matrices of [main] *)
Module Scene.

Import Glm.
#[local] Open Scope R_scope.

(** [struct Planet] without its GPU handles ([mesh], [tex]). *)
Record Planet : Set := mkPlanet {
  orbitRadius : R; orbitSpeed : R; spinSpeed : R;
  orbitAngle : R; spinAngle : R
}.

(** [Planet x{ mesh, tex, radius, orbitSpeed, spinSpeed }]: both angles start at 0. *)
Definition planet (radius oSpeed sSpeed : R) : Planet :=
  mkPlanet radius oSpeed sSpeed 0 0.

(** The eleven [Planet] locals of [main]. *)
Record World : Set := mkWorld {
  sun : Planet; mercury : Planet; venus : Planet; earth : Planet; moon : Planet;
  mars : Planet; jupiter : Planet; saturn : Planet; uranus : Planet;
  neptune : Planet; europa : Planet
}.

Definition initWorld : World :=
  mkWorld (planet 0 0 10) (planet 6 48 6) (planet 9 35 (-2)) (planet 12 30 50)
          (planet 2 80 20) (planet 15 24 40) (planet 20 13 80) (planet 26 10 70)
          (planet 32 7 50) (planet 38 5 40) (planet 3 90 15).

Definition bodies (w : World) : list Planet :=
  [ sun w; mercury w; venus w; earth w; moon w; mars w; jupiter w; saturn w;
    uranus w; neptune w; europa w ].

(** [float adv = paused ? 0.0f : (dt * timeScale);] *)
Definition advance (paused : bool) (dt timeScale : R) : R :=
  if paused then 0 else dt * timeScale.

(** [x.spinAngle += x.spinSpeed * adv;] *)
Definition spin (adv : R) (b : Planet) : Planet :=
  mkPlanet (orbitRadius b) (orbitSpeed b) (spinSpeed b)
           (orbitAngle b) (spinAngle b + spinSpeed b * adv).

(** [x.orbitAngle += x.orbitSpeed * adv; x.spinAngle += x.spinSpeed * adv;] *)
Definition orbit_spin (adv : R) (b : Planet) : Planet :=
  mkPlanet (orbitRadius b) (orbitSpeed b) (spinSpeed b)
           (orbitAngle b + orbitSpeed b * adv) (spinAngle b + spinSpeed b * adv).

(** The [// animate] block: the sun only spins. *)
Definition animate (adv : R) (w : World) : World :=
  mkWorld (spin adv (sun w)) (orbit_spin adv (mercury w)) (orbit_spin adv (venus w))
          (orbit_spin adv (earth w)) (orbit_spin adv (moon w)) (orbit_spin adv (mars w))
          (orbit_spin adv (jupiter w)) (orbit_spin adv (saturn w))
          (orbit_spin adv (uranus w)) (orbit_spin adv (neptune w))
          (orbit_spin adv (europa w)).

(** One pass of the frame loop over the bodies: lines 460 to 473. *)
Definition tick (paused : bool) (timeScale dt : R) (w : World) : World :=
  animate (advance paused dt timeScale) w.

Definition axisY : vec3 := mkVec3 0 1 0.

(** [Msun] *)
Definition sun_model (s : Planet) : mat4 :=
  rotate mat4_identity (radians (spinAngle s)) axisY.

(** The matrix [T] of [drawPlanet]. *)
Definition planet_model (b : Planet) : mat4 :=
  let T := rotate mat4_identity (radians (orbitAngle b)) axisY in
  let T := translate T (mkVec3 (orbitRadius b) 0 0) in
  rotate T (radians (spinAngle b)) axisY.

(** [Me] (and [Mj], and the first two lines of [Ms]): the orbit part of a
    planet's matrix. *)
Definition orbit_frame (b : Planet) : mat4 :=
  let M := rotate mat4_identity (radians (orbitAngle b)) axisY in
  translate M (mkVec3 (orbitRadius b) 0 0).

(** [Mm] (and [Meur]): a moon [m] drawn around the planet [b]. *)
Definition moon_model (b m : Planet) : mat4 :=
  let Me := orbit_frame b in
  let Mm := rotate Me (radians (orbitAngle m)) axisY in
  let Mm := translate Mm (mkVec3 (orbitRadius m) 0 0) in
  rotate Mm (radians (spinAngle m)) axisY.

(** [Ms] of the Saturn ring. *)
Definition ring_model (b : Planet) : mat4 :=
  rotate (orbit_frame b) (radians 27) (mkVec3 1 0 0).

(** Where a model matrix puts the centre of its mesh: [vec3(M * vec4(0,0,0,1))],
    as the vertex shader computes [FragPos]. *)
Definition world_position (M : mat4) : vec3 :=
  let q := mat4_apply M (mkVec4 0 0 0 1) in mkVec3 (wx q) (wy q) (wz q).

End Scene.

(** ** GLOBAL STATE, CAMERA HELPERS, INPUT CALLBACKS and the camera part of
       the frame loop *)
Module Camera.

Import Glm Scene.
#[local] Open Scope R_scope.

Inductive CamMode : Set := ORBIT | FREE | FOCUS.

Definition CamMode_eqb (a b : CamMode) : bool :=
  match a, b with
  | ORBIT, ORBIT | FREE, FREE | FOCUS, FOCUS => true
  | _, _ => false
  end.

(** The globals, without the window size and the fullscreen bookkeeping. *)
Record Globals : Set := mkGlobals {
  camMode : CamMode; showOrbits : bool; showStars : bool; paused : bool;
  timeScale : R; fovDeg : R;
  camYaw : R; camPitch : R; camDist : R;
  freePos : vec3; freeYaw : R; freePitch : R;
  rmbDown : bool; lastX : R; lastY : R;
  focusIndex : Z; focusDist : R
}.

Definition initGlobals : Globals :=
  mkGlobals ORBIT true true false 1 45
            (radians 0) (radians 15) 45
            (mkVec3 0 10 60) 0 0
            false 0 0
            0%Z 12.

Definition set_camMode (v : CamMode) (g : Globals) : Globals :=
  mkGlobals v (showOrbits g) (showStars g) (paused g) (timeScale g) (fovDeg g)
            (camYaw g) (camPitch g) (camDist g)
            (freePos g) (freeYaw g) (freePitch g)
            (rmbDown g) (lastX g) (lastY g)
            (focusIndex g) (focusDist g).
Definition set_showOrbits (v : bool) (g : Globals) : Globals :=
  mkGlobals (camMode g) v (showStars g) (paused g) (timeScale g) (fovDeg g)
            (camYaw g) (camPitch g) (camDist g)
            (freePos g) (freeYaw g) (freePitch g)
            (rmbDown g) (lastX g) (lastY g)
            (focusIndex g) (focusDist g).
Definition set_showStars (v : bool) (g : Globals) : Globals :=
  mkGlobals (camMode g) (showOrbits g) v (paused g) (timeScale g) (fovDeg g)
            (camYaw g) (camPitch g) (camDist g)
            (freePos g) (freeYaw g) (freePitch g)
            (rmbDown g) (lastX g) (lastY g)
            (focusIndex g) (focusDist g).
Definition set_paused (v : bool) (g : Globals) : Globals :=
  mkGlobals (camMode g) (showOrbits g) (showStars g) v (timeScale g) (fovDeg g)
            (camYaw g) (camPitch g) (camDist g)
            (freePos g) (freeYaw g) (freePitch g)
            (rmbDown g) (lastX g) (lastY g)
            (focusIndex g) (focusDist g).
Definition set_timeScale (v : R) (g : Globals) : Globals :=
  mkGlobals (camMode g) (showOrbits g) (showStars g) (paused g) v (fovDeg g)
            (camYaw g) (camPitch g) (camDist g)
            (freePos g) (freeYaw g) (freePitch g)
            (rmbDown g) (lastX g) (lastY g)
            (focusIndex g) (focusDist g).
Definition set_fovDeg (v : R) (g : Globals) : Globals :=
  mkGlobals (camMode g) (showOrbits g) (showStars g) (paused g) (timeScale g) v
            (camYaw g) (camPitch g) (camDist g)
            (freePos g) (freeYaw g) (freePitch g)
            (rmbDown g) (lastX g) (lastY g)
            (focusIndex g) (focusDist g).
Definition set_camYaw (v : R) (g : Globals) : Globals :=
  mkGlobals (camMode g) (showOrbits g) (showStars g) (paused g) (timeScale g) (fovDeg g)
            v (camPitch g) (camDist g)
            (freePos g) (freeYaw g) (freePitch g)
            (rmbDown g) (lastX g) (lastY g)
            (focusIndex g) (focusDist g).
Definition set_camPitch (v : R) (g : Globals) : Globals :=
  mkGlobals (camMode g) (showOrbits g) (showStars g) (paused g) (timeScale g) (fovDeg g)
            (camYaw g) v (camDist g)
            (freePos g) (freeYaw g) (freePitch g)
            (rmbDown g) (lastX g) (lastY g)
            (focusIndex g) (focusDist g).
Definition set_camDist (v : R) (g : Globals) : Globals :=
  mkGlobals (camMode g) (showOrbits g) (showStars g) (paused g) (timeScale g) (fovDeg g)
            (camYaw g) (camPitch g) v
            (freePos g) (freeYaw g) (freePitch g)
            (rmbDown g) (lastX g) (lastY g)
            (focusIndex g) (focusDist g).
Definition set_freePos (v : vec3) (g : Globals) : Globals :=
  mkGlobals (camMode g) (showOrbits g) (showStars g) (paused g) (timeScale g) (fovDeg g)
            (camYaw g) (camPitch g) (camDist g)
            v (freeYaw g) (freePitch g)
            (rmbDown g) (lastX g) (lastY g)
            (focusIndex g) (focusDist g).
Definition set_freeYaw (v : R) (g : Globals) : Globals :=
  mkGlobals (camMode g) (showOrbits g) (showStars g) (paused g) (timeScale g) (fovDeg g)
            (camYaw g) (camPitch g) (camDist g)
            (freePos g) v (freePitch g)
            (rmbDown g) (lastX g) (lastY g)
            (focusIndex g) (focusDist g).
Definition set_freePitch (v : R) (g : Globals) : Globals :=
  mkGlobals (camMode g) (showOrbits g) (showStars g) (paused g) (timeScale g) (fovDeg g)
            (camYaw g) (camPitch g) (camDist g)
            (freePos g) (freeYaw g) v
            (rmbDown g) (lastX g) (lastY g)
            (focusIndex g) (focusDist g).
Definition set_rmbDown (v : bool) (g : Globals) : Globals :=
  mkGlobals (camMode g) (showOrbits g) (showStars g) (paused g) (timeScale g) (fovDeg g)
            (camYaw g) (camPitch g) (camDist g)
            (freePos g) (freeYaw g) (freePitch g)
            v (lastX g) (lastY g)
            (focusIndex g) (focusDist g).
Definition set_lastX (v : R) (g : Globals) : Globals :=
  mkGlobals (camMode g) (showOrbits g) (showStars g) (paused g) (timeScale g) (fovDeg g)
            (camYaw g) (camPitch g) (camDist g)
            (freePos g) (freeYaw g) (freePitch g)
            (rmbDown g) v (lastY g)
            (focusIndex g) (focusDist g).
Definition set_lastY (v : R) (g : Globals) : Globals :=
  mkGlobals (camMode g) (showOrbits g) (showStars g) (paused g) (timeScale g) (fovDeg g)
            (camYaw g) (camPitch g) (camDist g)
            (freePos g) (freeYaw g) (freePitch g)
            (rmbDown g) (lastX g) v
            (focusIndex g) (focusDist g).
Definition set_focusIndex (v : Z) (g : Globals) : Globals :=
  mkGlobals (camMode g) (showOrbits g) (showStars g) (paused g) (timeScale g) (fovDeg g)
            (camYaw g) (camPitch g) (camDist g)
            (freePos g) (freeYaw g) (freePitch g)
            (rmbDown g) (lastX g) (lastY g)
            v (focusDist g).
Definition set_focusDist (v : R) (g : Globals) : Globals :=
  mkGlobals (camMode g) (showOrbits g) (showStars g) (paused g) (timeScale g) (fovDeg g)
            (camYaw g) (camPitch g) (camDist g)
            (freePos g) (freeYaw g) (freePitch g)
            (rmbDown g) (lastX g) (lastY g)
            (focusIndex g) v.

(** [orbitCamPos()] *)
Definition orbitCamPos (g : Globals) : vec3 :=
  let cp := cos (camPitch g) in
  let sp := sin (camPitch g) in
  let sy := sin (camYaw g) in
  let cy := cos (camYaw g) in
  mkVec3 (camDist g * cp * sy) (camDist g * sp) (camDist g * cp * cy).

(** [scroll_cb]; [yoff] is the offset after its cast to [float]. *)
Definition scroll_cb (yoff : R) (g : Globals) : Globals :=
  if CamMode_eqb (camMode g) FREE then
    set_fovDeg (clamp (fovDeg g - yoff) 20 90) g
  else if CamMode_eqb (camMode g) FOCUS then
    set_focusDist (clamp (focusDist g - yoff * 2) 3 400) g
  else
    set_camDist (clamp (camDist g - yoff * 2) 5 400) g.

Inductive MouseButton : Set := BUTTON_RIGHT | BUTTON_OTHER.
Inductive Action : Set := RELEASE | PRESS | REPEAT.

(** [mouse_btn_cb]; [cx], [cy] is what [glfwGetCursorPos] reports. *)
Definition mouse_btn_cb (button : MouseButton) (action : Action) (cx cy : R)
    (g : Globals) : Globals :=
  match button with
  | BUTTON_RIGHT =>
      match action with
      | PRESS => set_lastY cy (set_lastX cx (set_rmbDown true g))
      | _ => set_rmbDown false g
      end
  | BUTTON_OTHER => g
  end.

(** [cursor_cb] *)
Definition cursor_cb (x y : R) (g : Globals) : Globals :=
  if negb (rmbDown g) then g
  else
    let dx := x - lastX g in
    let dy := y - lastY g in
    let g := set_lastY y (set_lastX x g) in
    if negb (CamMode_eqb (camMode g) FREE) then
      let g := set_camYaw (camYaw g + dx * 0.005) g in
      let g := set_camPitch (camPitch g - dy * 0.005) g in
      set_camPitch (clamp (camPitch g) (radians (-89)) (radians 89)) g
    else
      let g := set_freeYaw (freeYaw g + dx * 0.002) g in
      let g := set_freePitch (freePitch g - dy * 0.002) g in
      set_freePitch (clamp (freePitch g) (radians (-85)) (radians 85)) g.

Inductive Key : Set :=
| KEY_ESCAPE | KEY_F11 | KEY_ENTER
| KEY_1 | KEY_2 | KEY_3 | KEY_N | KEY_P
| KEY_H | KEY_B
| KEY_LEFT_BRACKET | KEY_RIGHT_BRACKET | KEY_MINUS | KEY_EQUAL
| KEY_Z | KEY_X
| KEY_SPACE | KEY_W | KEY_A | KEY_S | KEY_D | KEY_Q | KEY_E
| KEY_OTHER.

(** The two focus commands of [key_cb]. *)
Definition focus_next (focusIndex : Z) : Z := Z.rem (focusIndex + 1) 9.
Definition focus_prev (focusIndex : Z) : Z := Z.rem (focusIndex + 8) 9.

(** [key_cb]; closing the window and the fullscreen switch change nothing
    that is kept here. *)
Definition key_cb (key : Key) (action : Action) (g : Globals) : Globals :=
  match action with
  | RELEASE => g
  | _ =>
    match key with
    | KEY_1 => set_camMode ORBIT g
    | KEY_2 => set_camMode FREE g
    | KEY_3 => set_camMode FOCUS g
    | KEY_N => set_focusIndex (focus_next (focusIndex g)) g
    | KEY_P => set_focusIndex (focus_prev (focusIndex g)) g
    | KEY_H => set_showOrbits (negb (showOrbits g)) g
    | KEY_B => set_showStars (negb (showStars g)) g
    | KEY_LEFT_BRACKET => set_timeScale (fmax 0 (timeScale g - 0.25)) g
    | KEY_RIGHT_BRACKET => set_timeScale (timeScale g + 0.25) g
    | KEY_MINUS => set_fovDeg (clamp (fovDeg g - 1) 20 90) g
    | KEY_EQUAL => set_fovDeg (clamp (fovDeg g + 1) 20 90) g
    | KEY_Z =>
        if CamMode_eqb (camMode g) FOCUS
        then set_focusDist (fmax 3 (focusDist g - 2)) g else g
    | KEY_X =>
        if CamMode_eqb (camMode g) FOCUS
        then set_focusDist (fmin 400 (focusDist g + 2)) g else g
    | _ => g
    end
  end.

(** *** The frame loop *)

(** What the loop carries from one pass to the next. *)
Record Sim : Set := mkSim { globals : Globals; world : World; prevSpace : bool }.

Definition initSim : Sim := mkSim initGlobals initWorld false.

(** [// spacebar pause (edge-detected)]; [held k] is
    [glfwGetKey(win, k) == GLFW_PRESS]. *)
Definition poll_space (held : Key -> bool) (prev : bool) (g : Globals) : Globals :=
  if held KEY_SPACE && negb prev then set_paused (negb (paused g)) g else g.

(** [// keyboard nudge for orbit cam] *)
Definition nudge (held : Key -> bool) (g : Globals) : Globals :=
  let g := if held KEY_A && negb (CamMode_eqb (camMode g) FREE)
           then set_camYaw (camYaw g - 0.04) g else g in
  let g := if held KEY_D && negb (CamMode_eqb (camMode g) FREE)
           then set_camYaw (camYaw g + 0.04) g else g in
  let g := if held KEY_Q && negb (CamMode_eqb (camMode g) FREE)
           then set_camPitch (camPitch g + 0.03) g else g in
  if held KEY_E && negb (CamMode_eqb (camMode g) FREE)
  then set_camPitch (camPitch g - 0.03) g else g.

(** [std::min] and [std::max] on [int] *)
Definition imin (a b : Z) : Z := if (b <? a)%Z then b else a.
Definition imax (a b : Z) : Z := if (a <? b)%Z then b else a.

(** [Planet* arr[9]] *)
Definition focus_array (w : World) : list Planet :=
  [ sun w; mercury w; venus w; earth w; mars w; jupiter w; saturn w;
    uranus w; neptune w ].

(** [arr[k]]: no element outside the array. *)
Definition array_get {A : Type} (arr : list A) (k : Z) : option A :=
  if (k <? 0)%Z then None else nth_error arr (Z.to_nat k).

(** [arr[std::max(0, std::min(8, focusIndex))]] *)
Definition focus_body (w : World) (g : Globals) : option Planet :=
  array_get (focus_array w) (imax 0 (imin 8 (focusIndex g))).

(** [glm::vec3 p(...)] of the FOCUS branch *)
Definition focus_target (f : Planet) : vec3 :=
  mkVec3 (orbitRadius f * cos (radians (orbitAngle f)))
         0
         (orbitRadius f * sin (radians (orbitAngle f))).

(** [glm::vec3 offset(...)] of the FOCUS branch *)
Definition focus_offset (g : Globals) : vec3 :=
  let cp := cos (camPitch g) in
  let spv := sin (camPitch g) in
  let sy := sin (camYaw g) in
  let cy := cos (camYaw g) in
  mkVec3 (focusDist g * cp * sy) (focusDist g * spv) (focusDist g * cp * cy).

(** [fwd], [right] and [dir] of the FREE branch *)
Definition free_fwd (g : Globals) : vec3 :=
  mkVec3 (sin (freeYaw g)) 0 (- cos (freeYaw g)).
Definition free_right (g : Globals) : vec3 :=
  normalize (cross (free_fwd g) (mkVec3 0 1 0)).
Definition free_dir (g : Globals) : vec3 :=
  mkVec3 (cos (freePitch g) * sin (freeYaw g))
         (sin (freePitch g))
         ((- cos (freePitch g)) * cos (freeYaw g)).

(** [const float move = (rmbDown ? 25.0f : 8.0f) * dt;] *)
Definition free_speed (g : Globals) : R := if rmbDown g then 25 else 8.
Definition free_step (g : Globals) (dt : R) : R := free_speed g * dt.

(** The six key tests of the FREE branch. *)
Definition free_move (held : Key -> bool) (dt : R) (g : Globals) : Globals :=
  let move := free_step g dt in
  let fwd := free_fwd g in
  let right := free_right g in
  let g := if held KEY_W then set_freePos (vadd (freePos g) (vscale move fwd)) g else g in
  let g := if held KEY_S then set_freePos (vsub (freePos g) (vscale move fwd)) g else g in
  let g := if held KEY_A then set_freePos (vsub (freePos g) (vscale move right)) g else g in
  let g := if held KEY_D then set_freePos (vadd (freePos g) (vscale move right)) g else g in
  let g := if held KEY_Q
           then set_freePos (mkVec3 (vx (freePos g)) (vy (freePos g) + move)
                                    (vz (freePos g))) g
           else g in
  if held KEY_E
  then set_freePos (mkVec3 (vx (freePos g)) (vy (freePos g) - move) (vz (freePos g))) g
  else g.

Record View : Set := mkView { eye : vec3; target : vec3; up : vec3 }.

(** [// camera build]: the globals it leaves, and the view it hands to
    [glm::lookAt] when the array read is inside the array. *)
Definition camera_build (held : Key -> bool) (dt : R) (w : World) (g : Globals)
    : Globals * option View :=
  let origin := mkVec3 0 0 0 in
  let up := mkVec3 0 1 0 in
  match camMode g with
  | ORBIT => (g, Some (mkView (orbitCamPos g) origin up))
  | FOCUS =>
      (g, match focus_body w g with
          | Some f =>
              let p := focus_target f in
              Some (mkView (vadd p (focus_offset g)) p up)
          | None => None
          end)
  | FREE =>
      let g := free_move held dt g in
      (g, Some (mkView (freePos g) (vadd (freePos g) (free_dir g)) up))
  end.

(** The two clamps after the camera build. *)
Definition frame_clamp (g : Globals) : Globals :=
  let g := set_camPitch (clamp (camPitch g) (radians (-89)) (radians 89)) g in
  set_camDist (clamp (camDist g) 5 400) g.

(** One pass of the loop up to the draw calls, for the time step [dt] and
    the keys held down. *)
Definition frame (held : Key -> bool) (dt : R) (s : Sim) : Sim * option View :=
  let g := poll_space held (prevSpace s) (globals s) in
  let g := nudge held g in
  let w := tick (paused g) (timeScale g) dt (world s) in
  let '(g, view) := camera_build held dt w g in
  let g := frame_clamp g in
  (mkSim g w (held KEY_SPACE), view).

(** What reaches the program: a pass of the loop, or a callback that
    [glfwPollEvents] runs between two passes. *)
Inductive Event : Type :=
| EvFrame (held : Key -> bool) (dt : R)
| EvScroll (yoff : R)
| EvMouseButton (button : MouseButton) (action : Action) (cx cy : R)
| EvCursor (x y : R)
| EvKey (key : Key) (action : Action).

Definition on_globals (f : Globals -> Globals) (s : Sim) : Sim :=
  mkSim (f (globals s)) (world s) (prevSpace s).

Definition step (s : Sim) (e : Event) : Sim :=
  match e with
  | EvFrame held dt => fst (frame held dt s)
  | EvScroll yoff => on_globals (scroll_cb yoff) s
  | EvMouseButton b a cx cy => on_globals (mouse_btn_cb b a cx cy) s
  | EvCursor x y => on_globals (cursor_cb x y) s
  | EvKey k a => on_globals (key_cb k a) s
  end.

Definition run (es : list Event) (s : Sim) : Sim := fold_left step es s.

End Camera.

(** ** The HUD pass and the sky pass of the frame loop *)
Module Hud.

Import Glm MeshFactory.
#[local] Open Scope R_scope.

(** [Mesh hudCircle = buildOrbitLine(128, 1.0f);] *)
Definition hudCircle : MeshData vec3 := buildOrbitLine 128 1.

(** [M2D] of the HUD block, for the window height [winH]. *)
Definition hud_model (winH : Z) : mat4 :=
  let center := mkVec2 100 (IZR winH - 100) in
  let pxR := 80 in
  let M2D := translate mat4_identity (mkVec3 (ux center) (uy center) 0) in
  scale M2D (mkVec3 pxR pxR 1).

(** [MVP2D = Ortho * M2D] *)
Definition hud_mvp (winW winH : Z) : mat4 :=
  let Ortho := ortho 0 (IZR winW) 0 (IZR winH) in
  mat4_mul Ortho (hud_model winH).

(** [vsLine]: [gl_Position = mvp * vec4(aPos, 1.0)] *)
Definition line_position (mvp : mat4) (aPos : vec3) : vec4 :=
  mat4_apply mvp (mkVec4 (vx aPos) (vy aPos) (vz aPos) 1).

(** [Mesh skyMesh = buildSphere(24, 48, 300.0f);] *)
Definition skyMesh : MeshData Vtx := buildSphere 24 48 300.

(** The model and the view matrix of the sky pass:
    [glm::translate(glm::mat4(1), eye)] and [glm::mat4(1)]. *)
Definition sky_model (eye : vec3) : mat4 := translate mat4_identity eye.
Definition sky_view : mat4 := mat4_identity.

(** [vsSrc]: [FragPos = vec3(model * vec4(aPos,1.0))], and
    [view * vec4(FragPos,1.0)], the point the projection is applied to. *)
Definition frag_pos (model : mat4) (aPos : vec3) : vec3 :=
  let q := mat4_apply model (mkVec4 (vx aPos) (vy aPos) (vz aPos) 1) in
  mkVec3 (wx q) (wy q) (wz q).
Definition view_pos (view model : mat4) (aPos : vec3) : vec4 :=
  let f := frag_pos model aPos in
  mat4_apply view (mkVec4 (vx f) (vy f) (vz f) 1).

(** [std::vector<Mesh> orbitLines] *)
Definition orbitLines : list (MeshData vec3) :=
  [ buildOrbitLine 256 6; buildOrbitLine 256 9; buildOrbitLine 256 12;
    buildOrbitLine 256 15; buildOrbitLine 256 20; buildOrbitLine 256 26;
    buildOrbitLine 256 32; buildOrbitLine 256 38 ].

(** The bodies handed to [drawPlanet], in the order of the calls. *)
Definition drawn_planets (w : Scene.World) : list Scene.Planet :=
  [ Scene.mercury w; Scene.venus w; Scene.earth w; Scene.mars w;
    Scene.jupiter w; Scene.saturn w; Scene.uranus w; Scene.neptune w ].

End Hud.

(** ** [toggle_fullscreen] *)
Module Window.

(** What GLFW keeps of the window: where it is, how large, and whether it
    covers a monitor.  [glfwGetWindowPos] and [glfwGetWindowSize] read the
    first four fields. *)
Record Win : Set := mkWin {
  posX : Z; posY : Z; width : Z; height : Z; fullscreenOn : bool
}.

(** The primary monitor: its position and its video mode. *)
Record Monitor : Set := mkMonitor {
  monX : Z; monY : Z; vmWidth : Z; vmHeight : Z; refreshRate : Z
}.

(** [glfwSetWindowMonitor(w, mon, x, y, width, height, rate)]: with a monitor
    the window covers it at the given size and the position is ignored;
    with [nullptr] the window is placed at [x], [y]. *)
Definition setWindowMonitor (mon : option Monitor) (x y w h : Z) (win : Win) : Win :=
  match mon with
  | Some m => mkWin (monX m) (monY m) w h true
  | None => mkWin x y w h false
  end.

(** The globals of [// fullscreen tracking]. *)
Record Tracking : Set := mkTracking {
  fullscreen : bool; savedX : Z; savedY : Z; savedW : Z; savedH : Z
}.

Definition initTracking : Tracking := mkTracking false 100 100 1280 720.

(** [toggle_fullscreen(w)], with [mon] the primary monitor. *)
Definition toggle_fullscreen (mon : Monitor) (st : Tracking * Win) : Tracking * Win :=
  let '(t, win) := st in
  if negb (fullscreen t) then
    let t := mkTracking (fullscreen t) (posX win) (posY win) (width win) (height win) in
    let win := setWindowMonitor (Some mon) 0 0 (vmWidth mon) (vmHeight mon) win in
    (mkTracking true (savedX t) (savedY t) (savedW t) (savedH t), win)
  else
    let win := setWindowMonitor None (savedX t) (savedY t) (savedW t) (savedH t) win in
    (mkTracking false (savedX t) (savedY t) (savedW t) (savedH t), win).

End Window.

(** ** The FPS counter of the frame loop *)
Module Fps.

#[local] Open Scope R_scope.

(** [fpsAccum], [fpsFrames], [fpsValue] *)
Record Counter : Set := mkCounter { fpsAccum : R; fpsFrames : Z; fpsValue : R }.

Definition initCounter : Counter := mkCounter 0 0 0.

(** [// ===== FPS accumulate & print to CMD =====] without the printing. *)
Definition fps_step (c : Counter) (dt : R) : Counter :=
  let acc := fpsAccum c + dt in
  let frames := (fpsFrames c + 1)%Z in
  if Rge_dec acc 0.5
  then mkCounter 0 0 (IZR frames / acc)
  else mkCounter acc frames (fpsValue c).

Definition fps_run (dts : list R) (c : Counter) : Counter := fold_left fps_step dts c.

End Fps.

(** ** Vocabulary of the statements *)
Module Terms.

Import Glm MeshFactory Scene Camera.

(** A generator call that produced nothing. *)
Definition rejected {V : Type} (m : MeshData V) : Prop :=
  vertices m = [] /\ indices m = [].

(** A count raised to the minimum 1. *)
Definition floored (count : Z) : Z := Z.max 1 count.

Definition positive_counts (c : MeshCall) : Prop :=
  match c with
  | CallSphere stacks slices => 1 <= stacks /\ 1 <= slices
  | CallRing segments => 1 <= segments
  | CallOrbitLine segments => 1 <= segments
  end.

(** A vector turned by the rotation that [glm::rotate] builds about the
    vertical axis. *)
Definition turn (angle : R) (v : vec3) : vec3 :=
  let q := mat4_apply (rotate mat4_identity angle axisY)
                      (mkVec4 (vx v) (vy v) (vz v) 0) in
  mkVec3 (wx q) (wy q) (wz q).

(** The moon matrix with each rotate and translate pair swapped: translate
    first, then rotate.  Not in the source; the order the moon is not drawn
    with. *)
Definition moon_model_commuted (b m : Planet) : mat4 :=
  let Me := translate mat4_identity (mkVec3 (orbitRadius b) 0 0) in
  let Me := rotate Me (radians (orbitAngle b)) axisY in
  let Mm := translate Me (mkVec3 (orbitRadius m) 0 0) in
  let Mm := rotate Mm (radians (orbitAngle m)) axisY in
  rotate Mm (radians (spinAngle m)) axisY.

(** Both camera distances inside their ranges. *)
Definition distances_in_range (g : Globals) : Prop :=
  (5 <= camDist g <= 400 /\ 3 <= focusDist g <= 400)%R.

(** 1 for a key that is held, 0 for one that is not. *)
Definition ind (b : bool) : R := if b then 1%R else 0%R.

(** The keyboard with W held and nothing else. *)
Definition held_W (k : Key) : bool := match k with KEY_W => true | _ => false end.

(** The unit vector that a yaw and a pitch point along. *)
Definition view_dir (yaw pitch : R) : vec3 :=
  mkVec3 (cos pitch * sin yaw) (sin pitch) (cos pitch * cos yaw).

(** The counter values [0, 1, ..., n-1] of a loop. *)
Definition counters (n : Z) : list Z := map Z.of_nat (seq 0 (Z.to_nat n)).

(** The index pairs of a closed line through [n] points: each point joined
    to the next, the last to the first. *)
Definition closed_line (n : Z) : list Z :=
  flat_map (fun i => [i; Z.rem (i + 1) n]) (counters n).

(** A point of the plane y = 0 at distance [|r|] from the vertical axis. *)
Definition on_circle (r : R) (q : vec3) : Prop :=
  (vy q = 0 /\ vx q * vx q + vz q * vz q = r * r)%R.

Definition unit_range (x : R) : Prop := (0 <= x <= 1)%R.

(** The radius and the two speeds of every body, in the order of [bodies]. *)
Definition constants (w : World) : list (R * R * R) :=
  map (fun b => (orbitRadius b, orbitSpeed b, spinSpeed b)) (bodies w).

(** The image of a point in the plane z = 0. *)
Definition mirror_z (q : vec3) : vec3 := mkVec3 (vx q) (vy q) (- vz q).

(** The two pitches inside their clamps. *)
Definition pitches_in_range (g : Globals) : Prop :=
  (radians (-89) <= camPitch g <= radians 89 /\
   radians (-85) <= freePitch g <= radians 85)%R.

(** A key event that selects a camera mode. *)
Definition mode_key (e : Event) : bool :=
  match e with
  | EvKey KEY_1 PRESS | EvKey KEY_1 REPEAT
  | EvKey KEY_2 PRESS | EvKey KEY_2 REPEAT
  | EvKey KEY_3 PRESS | EvKey KEY_3 REPEAT => true
  | _ => false
  end.

(** The key event that selects the FREE camera. *)
Definition free_key (e : Event) : bool :=
  match e with
  | EvKey KEY_2 PRESS | EvKey KEY_2 REPEAT => true
  | _ => false
  end.

(** What the ORBIT and FOCUS cameras are built from, and what the FREE
    camera is built from. *)
Definition orbit_camera (g : Globals) : R * R * R * R :=
  (camYaw g, camPitch g, camDist g, focusDist g).
Definition free_camera (g : Globals) : vec3 * R * R :=
  (freePos g, freeYaw g, freePitch g).

(** The sum of a list of time steps. *)
Definition total (dts : list R) : R := fold_right Rplus 0%R dts.

End Terms.

(** Record projections applied to a record, and nothing else. *)
Ltac proj :=
  cbn [Glm.ux Glm.uy Glm.vx Glm.vy Glm.vz Glm.wx Glm.wy Glm.wz Glm.ww
       Glm.col0 Glm.col1 Glm.col2 Glm.col3
       Scene.orbitRadius Scene.orbitSpeed Scene.spinSpeed Scene.orbitAngle
       Scene.spinAngle
       Camera.camMode Camera.showOrbits Camera.showStars Camera.paused
       Camera.timeScale Camera.fovDeg Camera.camYaw Camera.camPitch Camera.camDist
       Camera.freePos Camera.freeYaw Camera.freePitch Camera.rmbDown Camera.lastX
       Camera.lastY Camera.focusIndex Camera.focusDist
       Camera.globals Camera.world Camera.prevSpace
       Camera.eye Camera.target Camera.up fst snd] in *.

Ltac unfold_setters :=
  unfold Camera.set_camMode, Camera.set_showOrbits, Camera.set_showStars,
    Camera.set_paused, Camera.set_timeScale, Camera.set_fovDeg, Camera.set_camYaw,
    Camera.set_camPitch, Camera.set_camDist, Camera.set_freePos, Camera.set_freeYaw,
    Camera.set_freePitch, Camera.set_rmbDown, Camera.set_lastX, Camera.set_lastY,
    Camera.set_focusIndex, Camera.set_focusDist, Camera.on_globals in *.

(** Setters, projections and vector sums evaluated, innermost first. *)
Ltac gcbv :=
  cbv [Camera.set_camMode Camera.set_showOrbits Camera.set_showStars
       Camera.set_paused Camera.set_timeScale Camera.set_fovDeg Camera.set_camYaw
       Camera.set_camPitch Camera.set_camDist Camera.set_freePos Camera.set_freeYaw
       Camera.set_freePitch Camera.set_rmbDown Camera.set_lastX Camera.set_lastY
       Camera.set_focusIndex Camera.set_focusDist Camera.on_globals
       Camera.camMode Camera.showOrbits Camera.showStars Camera.paused
       Camera.timeScale Camera.fovDeg Camera.camYaw Camera.camPitch Camera.camDist
       Camera.freePos Camera.freeYaw Camera.freePitch Camera.rmbDown Camera.lastX
       Camera.lastY Camera.focusIndex Camera.focusDist
       Camera.globals Camera.world Camera.prevSpace
       Camera.eye Camera.target Camera.up
       Camera.CamMode_eqb Camera.initGlobals Camera.initSim
       Glm.ux Glm.uy Glm.vx Glm.vy Glm.vz Glm.vadd Glm.vsub Glm.vscale
       andb negb fst snd] in *.

Ltac vec_unfold :=
  cbv [Scene.world_position Glm.mat4_apply Glm.translate Glm.vadd Glm.vsub
       Glm.vscale Glm.vadd4 Glm.vscale4 Glm.dot Glm.cross Glm.mat4_identity
       Scene.axisY
       Glm.ux Glm.uy Glm.vx Glm.vy Glm.vz Glm.wx Glm.wy Glm.wz Glm.ww
       Glm.col0 Glm.col1 Glm.col2 Glm.col3
       Scene.orbitRadius Scene.orbitSpeed Scene.spinSpeed Scene.orbitAngle
       Scene.spinAngle] in *.

(** * Properties *)

(** ** Loops *)
Section LoopLemmas.

Import MeshFactory.
Context {St : Type}.
Variable Inv : Z -> St -> Prop.
Variable body : Z -> St -> St.

Lemma loop_invariant (count : nat) :
  forall i s,
    Inv i s ->
    (forall j t, i <= j < i + Z.of_nat count -> Inv j t -> Inv (j + 1) (body j t)) ->
    Inv (i + Z.of_nat count) (loop count i body s).
Proof.
  induction count as [|k IH]; intros i s Hi Hstep.
  - simpl. now rewrite Z.add_0_r.
  - cbn [loop].
    replace (i + Z.of_nat (S k)) with ((i + 1) + Z.of_nat k) by lia.
    apply IH.
    + apply Hstep; [lia | exact Hi].
    + intros j t Hj. apply Hstep. lia.
Qed.

Lemma for_lt_invariant (bound : Z) (s : St) :
  Inv 0 s ->
  (forall j t, 0 <= j < bound -> Inv j t -> Inv (j + 1) (body j t)) ->
  Inv (Z.max 0 bound) (for_lt bound body s).
Proof.
  intros H0 Hstep. unfold for_lt.
  replace (Z.max 0 bound) with (0 + Z.of_nat (Z.to_nat bound)) by lia.
  apply loop_invariant; [exact H0 |].
  intros j t Hj. apply Hstep. lia.
Qed.

Lemma for_le_invariant (bound : Z) (s : St) :
  Inv 0 s ->
  (forall j t, 0 <= j <= bound -> Inv j t -> Inv (j + 1) (body j t)) ->
  Inv (Z.max 0 (bound + 1)) (for_le bound body s).
Proof.
  intros H0 Hstep. unfold for_le.
  replace (Z.max 0 (bound + 1)) with (0 + Z.of_nat (Z.to_nat (bound + 1))) by lia.
  apply loop_invariant; [exact H0 |].
  intros j t Hj. apply Hstep. lia.
Qed.

End LoopLemmas.

(** ** The mesh generators *)
Section MeshCounts.

Import Glm MeshFactory.

Lemma size_push_back {A : Type} (l : list A) (x : A) :
  size (push_back l x) = size l + 1.
Proof. unfold size, push_back. rewrite length_app. simpl. lia. Qed.

Lemma sphere_vertices_size (stacks slices : Z) (r : R) :
  size (sphere_vertices stacks slices r)
  = Z.max 0 (stacks + 1) * Z.max 0 (slices + 1).
Proof.
  unfold sphere_vertices.
  apply (for_le_invariant (fun i v => size v = i * Z.max 0 (slices + 1))).
  - reflexivity.
  - intros i v _ Hv.
    replace ((i + 1) * Z.max 0 (slices + 1))
      with (size v + Z.max 0 (slices + 1)) by lia.
    apply (for_le_invariant (fun j v' => size v' = size v + j)).
    + lia.
    + intros j v' _ Hv'. rewrite size_push_back. lia.
Qed.

Lemma sphere_indices_size (stacks slices : Z) :
  size (sphere_indices stacks slices) = 6 * (Z.max 0 stacks * Z.max 0 slices).
Proof.
  unfold sphere_indices.
  replace (6 * (Z.max 0 stacks * Z.max 0 slices))
    with (Z.max 0 stacks * (6 * Z.max 0 slices)) by lia.
  apply (for_lt_invariant (fun i idx => size idx = i * (6 * Z.max 0 slices))).
  - reflexivity.
  - intros i idx _ Hidx.
    replace ((i + 1) * (6 * Z.max 0 slices))
      with (size idx + 6 * Z.max 0 slices) by lia.
    apply (for_lt_invariant (fun j idx' => size idx' = size idx + 6 * j)).
    + lia.
    + intros j idx' _ Hidx'. rewrite !size_push_back. lia.
Qed.


Lemma ring_sizes (segments : Z) (innerR outerR : R) :
  size (vertices (buildRing segments innerR outerR)) = 2 * Z.max 0 (segments + 1) /\
  size (indices (buildRing segments innerR outerR)) = 6 * Z.max 0 segments.
Proof.
  unfold buildRing.
  match goal with |- context [for_le segments ?b ?s] =>
    pose proof (for_le_invariant
      (fun i st => size (fst st) = 2 * i /\
                   size (snd st) = 6 * Z.min i (Z.max 0 segments)) b segments s) as H
  end.
  destruct (for_le segments _ _) as [v idx]. cbn [vertices indices fst snd] in *.
  destruct H as [Hv Hidx].
  - cbn [fst snd]. unfold size. simpl length. split; lia.
  - intros i [v' idx'] Hi [Hv' Hidx']. cbn [fst snd] in *.
    destruct (Z.ltb_spec i segments);
      cbn [fst snd]; rewrite ?size_push_back; split; lia.
  - split; lia.
Qed.

Lemma orbit_line_shape (segments : Z) (r : R) :
  size (vertices (buildOrbitLine segments r)) = Z.max 0 segments /\
  size (indices (buildOrbitLine segments r)) = 2 * Z.max 0 segments /\
  (0 < segments ->
   exists pre, indices (buildOrbitLine segments r)
               = pre ++ [segments - 1; Z.rem segments segments]).
Proof.
  unfold buildOrbitLine.
  match goal with |- context [for_lt segments ?b ?s] =>
    pose proof (for_lt_invariant
      (fun i st => size (fst st) = i /\ size (snd st) = 2 * i /\
                   (0 < i -> exists pre,
                      snd st = pre ++ [i - 1; Z.rem i segments])) b segments s) as H
  end.
  destruct (for_lt segments _ _) as [pts idx]. cbn [vertices indices fst snd] in *.
  destruct H as (Hp & Hidx & Hlast).
  - cbn [fst snd]. unfold size. simpl length. repeat split; lia.
  - intros i [pts' idx'] Hi (Hp' & Hidx' & _). cbn [fst snd] in *.
    rewrite !size_push_back. repeat split; try lia.
    intros _. exists idx'. unfold push_back. rewrite <- app_assoc. cbn.
    now replace (i + 1 - 1) with i by lia.
  - repeat split; try lia.
    intros Hpos. destruct Hlast as [pre Hpre]; [lia |].
    exists pre. rewrite Hpre. now replace (Z.max 0 segments) with segments by lia.
Qed.

Lemma int_of_size_small {A : Type} (l : list A) :
  size l < 2 ^ 31 -> int_of_size (length l) = size l.
Proof.
  unfold int_of_size, size. intros H.
  rewrite Z.mod_small; lia.
Qed.

End MeshCounts.

(** ** Claims on the mesh generators *)
Section MeshClaims.

Import Glm MeshFactory Terms.

(** C4. For all stacks [s >= 1] and slices [t >= 1], [buildSphere s t r]
    fills its vertex vector with exactly [(s+1)*(t+1)] vertices and its index
    vector with exactly [6*s*t] indices.  (The stored [indexCount] is that
    number as long as it fits an [int].) *)
Theorem buildSphere_counts (s t : Z) (r : R) :
  1 <= s -> 1 <= t ->
  size (vertices (buildSphere s t r)) = (s + 1) * (t + 1) /\
  size (indices (buildSphere s t r)) = 6 * s * t /\
  (6 * s * t < 2 ^ 31 -> indexCount (buildSphere s t r) = 6 * s * t).
Proof.
  intros Hs Ht. cbn [buildSphere vertices indices indexCount].
  rewrite sphere_vertices_size.
  pose proof (sphere_indices_size s t) as Hi.
  replace (Z.max 0 s) with s in Hi by lia.
  replace (Z.max 0 t) with t in Hi by lia.
  repeat split.
  - lia.
  - lia.
  - intros Hfit. rewrite int_of_size_small; lia.
Qed.

Lemma buildSphere_counts_witness :
  (1 <= 48 /\ 1 <= 96) /\
  size (vertices (buildSphere 48 96 2.8)) = 4753 /\
  size (indices (buildSphere 48 96 2.8)) = 27648 /\
  indexCount (buildSphere 48 96 2.8) = 27648.
Proof.
  split; [lia |].
  destruct (buildSphere_counts 48 96 2.8) as (Hv & Hi & Hc); [lia | lia |].
  split; [exact Hv | split; [exact Hi | apply Hc; lia]].
Defined.

(** C5. For all segments [n >= 1]: [buildRing n inner outer] produces
    [2*(n+1)] vertices and [6*n] indices; [buildOrbitLine n r] produces [n]
    points and [2*n] line indices, the last pair being [n-1, 0]. *)
Theorem ring_and_orbit_line_counts (n : Z) (innerR outerR r : R) :
  1 <= n ->
  size (vertices (buildRing n innerR outerR)) = 2 * (n + 1) /\
  size (indices (buildRing n innerR outerR)) = 6 * n /\
  size (vertices (buildOrbitLine n r)) = n /\
  size (indices (buildOrbitLine n r)) = 2 * n /\
  exists pre, indices (buildOrbitLine n r) = pre ++ [n - 1; 0].
Proof.
  intros Hn.
  destruct (ring_sizes n innerR outerR) as [Hv Hi].
  destruct (orbit_line_shape n r) as (Hp & Hl & Hlast).
  repeat split; try lia.
  destruct Hlast as [pre Hpre]; [lia |].
  exists pre. rewrite Hpre. rewrite Z.rem_same by lia. reflexivity.
Qed.

Lemma ring_and_orbit_line_counts_witness :
  1 <= 256 /\
  size (vertices (buildRing 256 1.8 3.2)) = 514 /\
  size (indices (buildRing 256 1.8 3.2)) = 1536 /\
  size (vertices (buildOrbitLine 256 6)) = 256 /\
  size (indices (buildOrbitLine 256 6)) = 512 /\
  exists pre, indices (buildOrbitLine 256 6) = pre ++ [255; 0].
Proof. split; [lia | apply (ring_and_orbit_line_counts 256 1.8 3.2 6); lia]. Defined.

(** C3, as the code has it.  No generator rejects or floors its counts: the
    loops run on the counts as they come, so a non-positive count gives the
    degenerate sizes below (a sphere of 0 stacks still gets a row of
    vertices, a ring of 0 segments its first two, an orbit line of no
    segment nothing at all).  The formulas stay away from such counts because
    every call of the program passes positive constants. *)
Theorem generators_take_counts_as_given (s t n : Z) (r innerR outerR : R) :
  size (vertices (buildSphere s t r)) = Z.max 0 (s + 1) * Z.max 0 (t + 1) /\
  size (indices (buildSphere s t r)) = 6 * (Z.max 0 s * Z.max 0 t) /\
  size (vertices (buildRing n innerR outerR)) = 2 * Z.max 0 (n + 1) /\
  size (indices (buildRing n innerR outerR)) = 6 * Z.max 0 n /\
  size (vertices (buildOrbitLine n r)) = Z.max 0 n /\
  size (indices (buildOrbitLine n r)) = 2 * Z.max 0 n /\
  Forall positive_counts main_mesh_calls.
Proof.
  destruct (ring_sizes n innerR outerR) as [Hv Hi].
  destruct (orbit_line_shape n r) as (Hp & Hl & _).
  repeat split; try assumption.
  - apply sphere_vertices_size.
  - apply sphere_indices_size.
  - unfold main_mesh_calls. repeat constructor; cbn; lia.
Qed.

(** C3 fails: called with 0 stacks, [buildSphere] neither returns an empty
    mesh nor the mesh of 1 stack; it emits a row of vertices whose texture
    coordinate is computed with the divisor 0.  [buildRing] with 0 segments
    does the same. *)
Lemma zero_counts_reach_the_formulas :
  ~ (rejected (buildSphere 0 1 1)
     \/ buildSphere 0 1 1 = buildSphere (floored 0) (floored 1) 1) /\
  (exists v rest, vertices (buildSphere 0 1 1) = v :: rest
                  /\ uy (uv v) = (1 - fraction 0 0)%R) /\
  ~ (rejected (buildRing 0 1 2) \/ buildRing 0 1 2 = buildRing (floored 0) 1 2).
Proof.
  split; [| split].
  - pose proof (sphere_vertices_size 0 1 1) as H0.
    pose proof (sphere_vertices_size 1 1 1) as H1.
    intros [[Hv _] | Heq].
    + cbn [buildSphere vertices] in Hv. rewrite Hv in H0. discriminate H0.
    + apply (f_equal (fun m => size (vertices m))) in Heq.
      change (floored 0) with 1 in Heq. change (floored 1) with 1 in Heq.
      cbn [buildSphere vertices] in Heq.
      rewrite H0, H1 in Heq. discriminate Heq.
  - cbv [buildSphere vertices sphere_vertices for_le].
    change (Z.to_nat (0 + 1)) with 1%nat. change (Z.to_nat (1 + 1)) with 2%nat.
    cbv [loop push_back app].
    eexists. eexists. split; [reflexivity |]. reflexivity.
  - destruct (ring_sizes 0 1 2) as [H0 _].
    destruct (ring_sizes 1 1 2) as [H1 _].
    intros [[Hv _] | Heq].
    + rewrite Hv in H0. discriminate H0.
    + change (floored 0) with 1 in Heq. rewrite Heq, H1 in H0. discriminate H0.
Qed.

End MeshClaims.

(** ** Model matrices *)
Section Transforms.

Import Glm Scene Camera Terms.
#[local] Open Scope R_scope.

Lemma normalize_axisY : normalize axisY = axisY.
Proof.
  unfold normalize, axisY, dot, vscale. proj.
  replace (0 * 0 + 1 * 1 + 0 * 0) with 1 by ring.
  rewrite sqrt_1, Rinv_1. f_equal; ring.
Qed.

Lemma rotate_axisY (m : mat4) (a : R) :
  rotate m a axisY
  = mkMat4 (vadd4 (vscale4 (cos a) (col0 m)) (vscale4 (- sin a) (col2 m)))
           (col1 m)
           (vadd4 (vscale4 (sin a) (col0 m)) (vscale4 (cos a) (col2 m)))
           (col3 m).
Proof.
  unfold rotate. rewrite normalize_axisY.
  destruct m as [[a0 a1 a2 a3] [b0 b1 b2 b3] [c0 c1 c2 c3] d].
  vec_unfold. f_equal; f_equal; ring.
Qed.

Lemma turn_components (a : R) (v : vec3) :
  turn a v = mkVec3 (cos a * vx v + sin a * vz v) (vy v)
                    (- sin a * vx v + cos a * vz v).
Proof.
  unfold turn. rewrite rotate_axisY. destruct v as [x y z].
  vec_unfold. f_equal; ring.
Qed.

(** The spin of a body does not move its centre. *)
Lemma planet_model_position (b : Planet) :
  world_position (planet_model b) = world_position (orbit_frame b).
Proof.
  unfold planet_model, orbit_frame. rewrite !rotate_axisY.
  vec_unfold. f_equal; ring.
Qed.

Lemma orbit_frame_position (b : Planet) :
  world_position (orbit_frame b)
  = turn (radians (orbitAngle b)) (mkVec3 (orbitRadius b) 0 0).
Proof.
  unfold orbit_frame. rewrite turn_components, rotate_axisY.
  vec_unfold. f_equal; ring.
Qed.

(** The centre of a moon: the centre of its planet, plus the moon's own
    offset turned by the moon's and then by the planet's orbit angle. *)
Lemma moon_model_position (b m : Planet) :
  world_position (moon_model b m)
  = vadd (world_position (orbit_frame b))
         (turn (radians (orbitAngle b))
               (turn (radians (orbitAngle m)) (mkVec3 (orbitRadius m) 0 0))).
Proof.
  rewrite orbit_frame_position, !turn_components.
  unfold moon_model, orbit_frame. rewrite !rotate_axisY.
  vec_unfold. f_equal; ring.
Qed.

Lemma moon_model_commuted_position (b m : Planet) :
  world_position (moon_model_commuted b m)
  = vadd (mkVec3 (orbitRadius b) 0 0)
         (turn (radians (orbitAngle b)) (mkVec3 (orbitRadius m) 0 0)).
Proof.
  rewrite turn_components.
  unfold moon_model_commuted. rewrite !rotate_axisY.
  vec_unfold. f_equal; ring.
Qed.

Lemma radians_90 : radians 90 = PI / 2.
Proof. unfold radians. field. Qed.

Lemma radians_0 : radians 0 = 0.
Proof. unfold radians. field. Qed.

Lemma turn_quarter (v : vec3) :
  turn (radians 90) v = mkVec3 (vz v) (vy v) (- vx v).
Proof.
  rewrite turn_components, radians_90, cos_PI2, sin_PI2. f_equal; ring.
Qed.

Lemma turn_zero (v : vec3) : turn (radians 0) v = v.
Proof.
  rewrite turn_components, radians_0, cos_0, sin_0. destruct v. proj. f_equal; ring.
Qed.

(** What the model matrices do with a planet of orbit radius 12 at orbit
    angle 90 degrees and its moon of orbit radius 2 at orbit angle 0,
    whatever their speeds and spins: [glm::rotate] about the vertical axis
    takes the reference axis +X to -Z, so the planet is drawn at (0,0,-12),
    and the moon at that point plus its offset (2,0,0) turned with the
    planet, (0,0,-2): (0,0,-14).  With translate and rotate swapped the moon
    would be drawn at (12,0,-2). *)
Lemma moon_of_quarter_turn_planet (os ss sa os' ss' sa' : R) :
  let b := mkPlanet 12 os ss 90 sa in
  let m := mkPlanet 2 os' ss' 0 sa' in
  world_position (planet_model b) = mkVec3 0 0 (-12) /\
  world_position (moon_model b m)
  = vadd (mkVec3 0 0 (-12)) (turn (radians 90) (mkVec3 2 0 0)) /\
  world_position (moon_model b m) = mkVec3 0 0 (-14) /\
  world_position (moon_model_commuted b m) = mkVec3 12 0 (-2).
Proof.
  intros b m.
  assert (Hb : world_position (orbit_frame b) = mkVec3 0 0 (-12)).
  { rewrite orbit_frame_position. subst b. cbn [orbitAngle orbitRadius].
    rewrite turn_quarter. proj. f_equal; ring. }
  repeat split.
  - rewrite planet_model_position. exact Hb.
  - rewrite moon_model_position, Hb. subst b m. cbn [orbitAngle orbitRadius].
    now rewrite turn_zero.
  - rewrite moon_model_position, Hb. subst b m. cbn [orbitAngle orbitRadius].
    rewrite turn_zero, turn_quarter. vec_unfold. f_equal; ring.
  - rewrite moon_model_commuted_position. subst b m. cbn [orbitAngle orbitRadius].
    rewrite turn_quarter. vec_unfold. f_equal; ring.
Qed.

(** For the Earth at 90 degrees and the Moon at 0 degrees, the planet is not
    drawn at (0,0,12), and the moon is not drawn at (0,0,12) plus the offset
    (2,0,0) turned by any angle at all. *)
Lemma moon_not_on_positive_z :
  let b := mkPlanet 12 30 50 90 0 in
  let m := mkPlanet 2 80 20 0 0 in
  world_position (orbit_frame b) <> mkVec3 0 0 12 /\
  ~ (exists a, world_position (moon_model b m)
               = vadd (mkVec3 0 0 12) (turn a (mkVec3 2 0 0))).
Proof.
  intros b m. split.
  - rewrite orbit_frame_position. subst b. cbn [orbitAngle orbitRadius].
    rewrite turn_quarter. proj. intros H.
    apply (f_equal vz) in H. proj. lra.
  - intros [a H].
    rewrite moon_model_position, orbit_frame_position in H.
    subst b m. cbn [orbitAngle orbitRadius] in H.
    rewrite turn_zero, !turn_quarter, (turn_components a) in H.
    apply (f_equal vz) in H. unfold vadd in H. proj.
    pose proof (SIN_bound a) as [Hlo Hhi]. lra.
Qed.

(** The FOCUS camera computes its target with [+sin] where the model matrix
    has [-sin]: it aims at the mirror image of the drawn body across the
    plane z = 0. *)
Lemma focus_target_mirrors_the_drawn_body (b : Planet) :
  focus_target b
  = mkVec3 (vx (world_position (planet_model b))) 0
           (- vz (world_position (planet_model b))).
Proof.
  rewrite planet_model_position, orbit_frame_position, turn_components.
  unfold focus_target. proj. f_equal; ring.
Qed.

Lemma focus_target_quarter_turn (r os ss sa : R) :
  focus_target (mkPlanet r os ss 90 sa) = mkVec3 0 0 r.
Proof.
  unfold focus_target. cbn [orbitRadius orbitAngle].
  rewrite radians_90, cos_PI2, sin_PI2. f_equal; ring.
Qed.

(** C1.  In the scenario of the claim (a planet of orbit radius 12 at orbit
    angle 90 degrees, its moon of orbit radius 2 at orbit angle 0, whatever
    their speeds and spins) the program does not agree with itself.  The
    FOCUS branch computes the planet's orbit point as (0,0,12), the value of
    the claim.  The model matrices draw the planet at (0,0,-12) and the moon
    at (0,0,-14): not at the orbit point of the FOCUS branch plus the offset
    (2,0,0) turned by any angle. *)
Theorem focus_and_model_matrix_disagree (os ss sa os' ss' sa' : R) :
  let b := mkPlanet 12 os ss 90 sa in
  let m := mkPlanet 2 os' ss' 0 sa' in
  focus_target b = mkVec3 0 0 12 /\
  world_position (planet_model b) = mkVec3 0 0 (-12) /\
  world_position (moon_model b m) = mkVec3 0 0 (-14) /\
  ~ (exists a, world_position (moon_model b m)
               = vadd (focus_target b) (turn a (mkVec3 2 0 0))).
Proof.
  intros b m.
  assert (Hf : focus_target b = mkVec3 0 0 12)
    by apply focus_target_quarter_turn.
  assert (Hb : world_position (orbit_frame b) = mkVec3 0 0 (-12)).
  { rewrite orbit_frame_position. subst b. cbn [orbitAngle orbitRadius].
    rewrite turn_quarter. proj. f_equal; ring. }
  assert (Hm : world_position (moon_model b m) = mkVec3 0 0 (-14)).
  { rewrite moon_model_position, Hb. subst b m. cbn [orbitAngle orbitRadius].
    rewrite turn_zero, turn_quarter. vec_unfold. f_equal; ring. }
  split; [exact Hf | split; [| split; [exact Hm |]]].
  - rewrite planet_model_position. exact Hb.
  - intros [a H]. rewrite Hm, Hf, (turn_components a) in H.
    apply (f_equal vz) in H. unfold vadd in H. proj.
    pose proof (SIN_bound a) as [Hlo Hhi]. lra.
Qed.

End Transforms.

(** ** What each part of a frame may write *)
Section Footprints.

Import Glm Scene Camera.
#[local] Open Scope R_scope.

Lemma poll_space_footprint (held : Key -> bool) (prev : bool) (g : Globals) :
  exists b, poll_space held prev g = set_paused b g.
Proof.
  unfold poll_space. destruct (held KEY_SPACE && negb prev).
  - now exists (negb (paused g)).
  - exists (paused g). now destruct g.
Qed.

Lemma nudge_footprint (held : Key -> bool) (g : Globals) :
  exists yaw pitch, nudge held g = set_camPitch pitch (set_camYaw yaw g).
Proof.
  unfold nudge. destruct g as [mode so ss pa ts fov yaw pitch dist fp fy fpi rmb lx ly fi fd].
  destruct (held KEY_A), (held KEY_D), (held KEY_Q), (held KEY_E), mode;
    gcbv; eexists; eexists; reflexivity.
Qed.

Lemma free_move_footprint (held : Key -> bool) (dt : R) (g : Globals) :
  exists pos, free_move held dt g = set_freePos pos g.
Proof.
  unfold free_move. destruct g as [mode so ss pa ts fov yaw pitch dist fp fy fpi rmb lx ly fi fd].
  destruct (held KEY_W), (held KEY_S), (held KEY_A), (held KEY_D), (held KEY_Q),
    (held KEY_E); gcbv; eexists; reflexivity.
Qed.

Lemma camera_build_footprint (held : Key -> bool) (dt : R) (w : World) (g : Globals) :
  exists pos, fst (camera_build held dt w g) = set_freePos pos g.
Proof.
  unfold camera_build. destruct (camMode g) eqn:Hm; cbn [fst].
  - exists (freePos g). now destruct g.
  - apply free_move_footprint.
  - exists (freePos g). now destruct g.
Qed.

(** The globals a pass of the loop leaves behind. *)
Lemma frame_footprint (held : Key -> bool) (dt : R) (s : Sim) :
  exists b yaw pitch pos dist,
    globals (fst (frame held dt s))
    = set_camDist dist (set_camPitch pitch (set_freePos pos
        (set_camYaw yaw (set_paused b (globals s))))) /\
    dist = clamp (camDist (globals s)) 5 400 /\
    b = paused (poll_space held (prevSpace s) (globals s)).
Proof.
  unfold frame.
  destruct (poll_space_footprint held (prevSpace s) (globals s)) as [b Hb].
  destruct (nudge_footprint held (poll_space held (prevSpace s) (globals s)))
    as (yaw & pitch & Hn).
  set (g1 := nudge held (poll_space held (prevSpace s) (globals s))) in *.
  destruct (camera_build_footprint held dt
              (tick (paused g1) (timeScale g1) dt (world s)) g1) as [pos Hc].
  destruct (camera_build held dt _ g1) as [g2 view]. cbn [fst] in Hc.
  cbn [fst globals]. unfold frame_clamp.
  exists b, yaw, (clamp (camPitch g2) (radians (-89)) (radians 89)), pos,
    (clamp (camDist (globals s)) 5 400).
  rewrite Hc, Hn, Hb. destruct (globals s). gcbv. repeat split; reflexivity.
Qed.

Lemma frame_world (held : Key -> bool) (dt : R) (s : Sim) :
  world (fst (frame held dt s))
  = tick (paused (poll_space held (prevSpace s) (globals s)))
         (timeScale (globals s)) dt (world s).
Proof.
  unfold frame.
  destruct (poll_space_footprint held (prevSpace s) (globals s)) as [b Hb].
  destruct (nudge_footprint held (poll_space held (prevSpace s) (globals s)))
    as (yaw & pitch & Hn).
  set (g1 := nudge held (poll_space held (prevSpace s) (globals s))) in *.
  destruct (camera_build held dt _ g1) as [g2 view]. cbn [fst world].
  rewrite Hn, Hb. destruct (globals s). reflexivity.
Qed.

Lemma run_invariant (P : Sim -> Prop) :
  (forall s e, P s -> P (step s e)) ->
  forall es s, P s -> P (run es s).
Proof.
  intros Hstep es. unfold run.
  induction es as [|e es IH]; intros s Hs; cbn [fold_left].
  - exact Hs.
  - apply IH, Hstep, Hs.
Qed.

End Footprints.

(** ** The simulation clock *)
Section Clock.

Import Glm Scene Camera.
#[local] Open Scope R_scope.

Lemma sun_never_orbits (es : list Event) :
  orbitSpeed (sun (world (run es initSim))) = 0.
Proof.
  apply (run_invariant (fun s => orbitSpeed (sun (world s)) = 0)); [| reflexivity].
  intros s [held dt | yoff | b a cx cy | x y | k a] Hs; cbn [step on_globals world];
    try exact Hs.
  rewrite frame_world. exact Hs.
Qed.

(** C2. In every pass of the frame loop, from any state the program can be
    in and for any time step [dt] (non-negative or not), with [p] the pause
    flag once the space key of this pass has been handled: every body keeps
    its angles when [p] is set, and otherwise gains [orbitSpeed * dt * timeScale]
    and [spinSpeed * dt * timeScale].  The pass changes the bodies through
    the one value [advance p dt timeScale] only. *)
Theorem frame_advances_every_body (es : list Event) (held : Key -> bool) (dt : R) :
  let s := run es initSim in
  let s' := fst (frame held dt s) in
  let p := paused (poll_space held (prevSpace s) (globals s)) in
  let ts := timeScale (globals s) in
  advance p dt ts = (if p then 0 else dt * ts) /\
  world s' = animate (advance p dt ts) (world s) /\
  Forall2 (fun b b' =>
             if p
             then orbitAngle b' = orbitAngle b /\ spinAngle b' = spinAngle b
             else orbitAngle b' = orbitAngle b + orbitSpeed b * dt * ts /\
                  spinAngle b' = spinAngle b + spinSpeed b * dt * ts)
          (bodies (world s)) (bodies (world s')).
Proof.
  intros s s' p ts.
  assert (Hw : world s' = animate (advance p dt ts) (world s)).
  { subst s' p ts. rewrite frame_world. reflexivity. }
  split; [reflexivity | split; [exact Hw |]].
  rewrite Hw.
  pose proof (sun_never_orbits es) as Hsun. fold s in Hsun.
  unfold bodies, animate, advance, orbit_spin, spin.
  destruct p; repeat constructor;
    cbn [orbitAngle spinAngle orbitSpeed spinSpeed sun mercury venus earth moon mars
         jupiter saturn uranus neptune europa];
    try rewrite Hsun; ring.
Qed.

End Clock.

(** ** The focus index *)
Section Focus.

Import Glm Scene Camera.

Lemma focus_index_cases (i : Z) :
  0 <= i <= 8 ->
  i = 0 \/ i = 1 \/ i = 2 \/ i = 3 \/ i = 4 \/ i = 5 \/ i = 6 \/ i = 7 \/ i = 8.
Proof. lia. Qed.

Ltac each_index H :=
  apply focus_index_cases in H;
  repeat (destruct H as [H | H]; [subst |]); subst.

Lemma focus_next_range (i : Z) : 0 <= i <= 8 -> 0 <= focus_next i <= 8.
Proof. intros H. each_index H; cbv; intuition discriminate. Qed.

Lemma focus_prev_range (i : Z) : 0 <= i <= 8 -> 0 <= focus_prev i <= 8.
Proof. intros H. each_index H; cbv; intuition discriminate. Qed.

Lemma focus_next_mod (i : Z) : 0 <= i <= 8 -> focus_next i = (i + 1) mod 9.
Proof. intros H. each_index H; reflexivity. Qed.

Lemma focus_prev_mod (i : Z) : 0 <= i <= 8 -> focus_prev i = (i - 1) mod 9.
Proof. intros H. each_index H; reflexivity. Qed.

Lemma focus_next_prev (i : Z) : 0 <= i <= 8 -> focus_next (focus_prev i) = i.
Proof. intros H. each_index H; reflexivity. Qed.

Lemma focus_next_9 (i : Z) :
  0 <= i <= 8 -> Nat.iter 9 focus_next i = i.
Proof. intros H. each_index H; reflexivity. Qed.

Lemma frame_focusIndex (held : Key -> bool) (dt : R) (s : Sim) :
  focusIndex (globals (fst (frame held dt s))) = focusIndex (globals s).
Proof.
  destruct (frame_footprint held dt s) as (b & yaw & pitch & pos & dist & H & _).
  rewrite H. now destruct (globals s).
Qed.

Lemma scroll_cb_focusIndex (yoff : R) (g : Globals) :
  focusIndex (scroll_cb yoff g) = focusIndex g.
Proof.
  unfold scroll_cb.
  destruct (CamMode_eqb (camMode g) FREE), (CamMode_eqb (camMode g) FOCUS);
    now destruct g.
Qed.

Lemma mouse_btn_cb_focusIndex (b : MouseButton) (a : Action) (cx cy : R) (g : Globals) :
  focusIndex (mouse_btn_cb b a cx cy g) = focusIndex g.
Proof. destruct b, a; now destruct g. Qed.

Lemma cursor_cb_focusIndex (x y : R) (g : Globals) :
  focusIndex (cursor_cb x y g) = focusIndex g.
Proof.
  unfold cursor_cb. destruct g as [mode so ss pa ts fov yaw pitch dist fp fy fpi rmb lx ly fi fd].
  destruct rmb, mode; reflexivity.
Qed.

Lemma key_cb_focusIndex (k : Key) (a : Action) (g : Globals) :
  focusIndex (key_cb k a g) = focusIndex g
  \/ focusIndex (key_cb k a g) = focus_next (focusIndex g)
  \/ focusIndex (key_cb k a g) = focus_prev (focusIndex g).
Proof.
  destruct g as [mode so ss pa ts fov yaw pitch dist fp fy fpi rmb lx ly fi fd].
  destruct a, k, mode; cbn; auto.
Qed.

Lemma focus_index_invariant (es : list Event) :
  0 <= focusIndex (globals (run es initSim)) <= 8.
Proof.
  apply (run_invariant (fun s => 0 <= focusIndex (globals s) <= 8)).
  - intros s [held dt | yoff | b a cx cy | x y | k a] Hs; cbn [step on_globals globals].
    + now rewrite frame_focusIndex.
    + now rewrite scroll_cb_focusIndex.
    + now rewrite mouse_btn_cb_focusIndex.
    + now rewrite cursor_cb_focusIndex.
    + destruct (key_cb_focusIndex k a (globals s)) as [H | [H | H]]; rewrite H.
      * exact Hs.
      * now apply focus_next_range.
      * now apply focus_prev_range.
  - cbn. lia.
Qed.

Lemma imax_imin_range (i : Z) : 0 <= imax 0 (imin 8 i) <= 8.
Proof.
  unfold imax, imin.
  destruct (Z.ltb_spec i 8); destruct (Z.ltb_spec 0 i); try lia;
  destruct (Z.ltb_spec 0 8); lia.
Qed.

Lemma imax_imin_id (i : Z) : 0 <= i <= 8 -> imax 0 (imin 8 i) = i.
Proof.
  intros H. unfold imax, imin.
  destruct (Z.ltb_spec i 8); destruct (Z.ltb_spec 0 i); try lia;
  destruct (Z.ltb_spec 0 8); lia.
Qed.

Lemma array_get_focus_array (w : World) (k : Z) :
  0 <= k <= 8 -> exists f, array_get (focus_array w) k = Some f.
Proof. intros H. each_index H; eexists; reflexivity. Qed.

Lemma run_next_n (n : nat) (s : Sim) :
  focusIndex (globals (run (repeat (EvKey KEY_N PRESS) n) s))
  = Nat.iter n focus_next (focusIndex (globals s)).
Proof.
  revert s. induction n as [|n IH]; intros s.
  - reflexivity.
  - cbn [repeat]. change (run (?e :: ?es) s) with (run es (step s e)).
    rewrite IH, Nat.iter_succ_r. reflexivity.
Qed.

(** C6. From any focus index the program can hold: nine [N] key presses
    bring the index back to where it was, and a [P] press followed by an [N]
    press leaves it where it was. *)
Theorem focus_cycle_round_trips (es : list Event) :
  let s := run es initSim in
  focusIndex (globals (run (repeat (EvKey KEY_N PRESS) 9) s)) = focusIndex (globals s) /\
  focusIndex (globals (run [EvKey KEY_P PRESS; EvKey KEY_N PRESS] s))
  = focusIndex (globals s).
Proof.
  intros s. pose proof (focus_index_invariant es) as Hi. fold s in Hi. split.
  - rewrite run_next_n. now apply focus_next_9.
  - transitivity (focus_next (focus_prev (focusIndex (globals s)))).
    + destruct s as [g w ps]. now destruct g.
    + now apply focus_next_prev.
Qed.

(** C7. After any sequence of events (key presses [N] and [P] among them)
    the focus index is one of 0..8: the two commands step it modulo 9, 8 going
    to 0 and 0 to 8.  The array read of the FOCUS camera, with its clamp, is
    at that very index and inside the array. *)
Theorem focus_index_stays_in_the_array (es : list Event) (w : World) :
  let g := globals (run es initSim) in
  0 <= focusIndex g <= 8 /\
  focus_next (focusIndex g) = (focusIndex g + 1) mod 9 /\
  focus_prev (focusIndex g) = (focusIndex g - 1) mod 9 /\
  focus_next 8 = 0 /\ focus_prev 0 = 8 /\
  focus_body w g = nth_error (focus_array w) (Z.to_nat (focusIndex g)) /\
  exists f, focus_body w g = Some f.
Proof.
  intros g. pose proof (focus_index_invariant es) as Hi. fold g in Hi.
  repeat split; try lia.
  - now apply focus_next_mod.
  - now apply focus_prev_mod.
  - unfold focus_body. rewrite imax_imin_id by exact Hi.
    unfold array_get. destruct (Z.ltb_spec (focusIndex g) 0); [lia | reflexivity].
  - unfold focus_body. apply array_get_focus_array, imax_imin_range.
Qed.

End Focus.

(** ** The camera distances *)
Section Distances.

Import Glm Scene Camera Terms.
#[local] Open Scope R_scope.

Lemma fmax_bounds (x lo : R) : lo <= fmax x lo /\ x <= fmax x lo.
Proof. unfold fmax. destruct (Rlt_dec x lo); lra. Qed.

Lemma clamp_bounds (x lo hi : R) : lo <= hi -> lo <= clamp x lo hi <= hi.
Proof.
  intros H. unfold clamp, fmin.
  destruct (fmax_bounds x lo) as [Hlo _].
  destruct (Rlt_dec hi (fmax x lo)); lra.
Qed.

Lemma scroll_cb_distances (yoff : R) (g : Globals) :
  distances_in_range g -> distances_in_range (scroll_cb yoff g).
Proof.
  unfold distances_in_range, scroll_cb. intros [Hc Hf].
  destruct (CamMode_eqb (camMode g) FREE); [now destruct g |].
  destruct (CamMode_eqb (camMode g) FOCUS).
  - pose proof (clamp_bounds (focusDist g - yoff * 2) 3 400 ltac:(lra)).
    destruct g; cbn in *. split; assumption.
  - pose proof (clamp_bounds (camDist g - yoff * 2) 5 400 ltac:(lra)).
    destruct g; cbn in *. split; assumption.
Qed.

Lemma key_cb_distances (k : Key) (a : Action) (g : Globals) :
  distances_in_range g -> distances_in_range (key_cb k a g).
Proof.
  unfold distances_in_range. intros [Hc Hf].
  destruct g as [mode so ss pa ts fov yaw pitch dist fp fy fpi rmb lx ly fi fd].
  cbn in Hc, Hf.
  destruct a; [cbn; split; assumption | |];
    (destruct k; try (cbn; split; assumption);
     destruct mode; cbn; unfold fmax, fmin;
     repeat match goal with |- context [Rlt_dec ?u ?v] => destruct (Rlt_dec u v) end;
     split; lra).
Qed.

Lemma mouse_btn_cb_distances (b : MouseButton) (a : Action) (cx cy : R) (g : Globals) :
  distances_in_range g -> distances_in_range (mouse_btn_cb b a cx cy g).
Proof. destruct b, a; now destruct g. Qed.

Lemma cursor_cb_distances (x y : R) (g : Globals) :
  distances_in_range g -> distances_in_range (cursor_cb x y g).
Proof.
  unfold cursor_cb.
  destruct g as [mode so ss pa ts fov yaw pitch dist fp fy fpi rmb lx ly fi fd].
  destruct rmb, mode; intros H; exact H.
Qed.

Lemma frame_distances (held : Key -> bool) (dt : R) (s : Sim) :
  distances_in_range (globals s) ->
  distances_in_range (globals (fst (frame held dt s))).
Proof.
  unfold distances_in_range. intros [Hc Hf].
  destruct (frame_footprint held dt s) as (b & yaw & pitch & pos & dist & H & Hd & _).
  rewrite H.
  pose proof (clamp_bounds (camDist (globals s)) 5 400 ltac:(lra)) as Hcl.
  rewrite <- Hd in Hcl. destruct (globals s). cbn in *. split; assumption.
Qed.

(** C8. After any sequence of events (scroll offsets of any size and sign,
    the [Z] and [X] keys, passes of the frame loop, and all the rest) the
    orbit distance is in [5, 400] and the focus distance in [3, 400]. *)
Theorem distances_stay_clamped (es : list Event) :
  let g := globals (run es initSim) in
  5 <= camDist g <= 400 /\ 3 <= focusDist g <= 400.
Proof.
  apply (run_invariant (fun s => distances_in_range (globals s))).
  - intros s [held dt | yoff | b a cx cy | x y | k a] Hs; cbn [step on_globals globals].
    + now apply frame_distances.
    + now apply scroll_cb_distances.
    + now apply mouse_btn_cb_distances.
    + now apply cursor_cb_distances.
    + now apply key_cb_distances.
  - unfold distances_in_range. cbn. lra.
Qed.

End Distances.

(** ** The free camera *)
Section FreeCamera.

Import Glm Scene Camera Terms.
#[local] Open Scope R_scope.

Lemma free_right_yaw (g : Globals) :
  free_right g = mkVec3 (cos (freeYaw g)) 0 (sin (freeYaw g)).
Proof.
  unfold free_right, free_fwd, normalize.
  set (c := cross _ _).
  assert (Hc : c = mkVec3 (cos (freeYaw g)) 0 (sin (freeYaw g))).
  { subst c. unfold cross. cbn. f_equal; ring. }
  rewrite Hc. unfold dot. cbn.
  replace (cos (freeYaw g) * cos (freeYaw g) + 0 * 0 + sin (freeYaw g) * sin (freeYaw g))
    with (Rsqr (sin (freeYaw g)) + Rsqr (cos (freeYaw g))) by (unfold Rsqr; ring).
  rewrite sin2_cos2, sqrt_1, Rinv_1. unfold vscale. cbn. f_equal; ring.
Qed.

Lemma free_move_displacement (held : Key -> bool) (dt : R) (g : Globals) :
  freePos (free_move held dt g)
  = vadd (freePos g)
      (vscale (free_step g dt)
         (vadd (vadd (vscale (ind (held KEY_W) - ind (held KEY_S))
                             (mkVec3 (sin (freeYaw g)) 0 (- cos (freeYaw g))))
                     (vscale (ind (held KEY_D) - ind (held KEY_A))
                             (mkVec3 (cos (freeYaw g)) 0 (sin (freeYaw g)))))
               (vscale (ind (held KEY_Q) - ind (held KEY_E)) (mkVec3 0 1 0)))).
Proof.
  unfold free_move. rewrite free_right_yaw. unfold free_fwd.
  destruct g as [mode so ss pa ts fov yaw pitch dist fp fy fpi rmb lx ly fi fd].
  destruct fp as [px py pz].
  unfold free_step, free_speed, ind.
  destruct (held KEY_W), (held KEY_S), (held KEY_A), (held KEY_D), (held KEY_Q),
    (held KEY_E); gcbv; f_equal; ring.
Qed.

Lemma nudge_free (held : Key -> bool) (g : Globals) :
  camMode g = FREE -> nudge held g = g.
Proof.
  intros Hm. unfold nudge.
  destruct g as [mode so ss pa ts fov y0 p0 dist fp fy fpi rmb lx ly fi fd].
  cbn [camMode] in Hm. subst mode.
  destruct (held KEY_A), (held KEY_D), (held KEY_Q), (held KEY_E); reflexivity.
Qed.

Lemma freePos_frame_clamp (g : Globals) : freePos (frame_clamp g) = freePos g.
Proof. now destruct g. Qed.

Lemma free_move_set_paused (held : Key -> bool) (dt : R) (b : bool) (g : Globals) :
  freePos (free_move held dt (set_paused b g)) = freePos (free_move held dt g).
Proof. rewrite !free_move_displacement. now destruct g. Qed.

Lemma frame_free_pos (held : Key -> bool) (dt : R) (s : Sim) :
  camMode (globals s) = FREE ->
  freePos (globals (fst (frame held dt s))) = freePos (free_move held dt (globals s)).
Proof.
  intros Hm. unfold frame.
  destruct (poll_space_footprint held (prevSpace s) (globals s)) as [b Hb].
  rewrite Hb.
  assert (Hm' : camMode (set_paused b (globals s)) = FREE)
    by (rewrite <- Hm; now destruct (globals s)).
  rewrite (nudge_free held _ Hm').
  unfold camera_build. rewrite Hm'. cbn [fst globals].
  rewrite freePos_frame_clamp. apply free_move_set_paused.
Qed.

End FreeCamera.

Section FreeCameraClaims.

Import Glm Scene Camera Terms.
#[local] Open Scope R_scope.

(** C9, as the code has it.  In a pass of the frame loop in FREE mode the
    held keys move the camera by [free_speed * dt] along three fixed
    directions: forward (W, back with S) and right (D, left with A) are
    horizontal vectors given by the yaw alone, up (Q, down with E) is the
    world's vertical axis.  The pitch has no part in it.  The speed is 25
    while the look button is held and 8 when it is released. *)
Theorem free_camera_moves_by_yaw (held : Key -> bool) (dt : R) (s : Sim) :
  camMode (globals s) = FREE ->
  let g := globals s in
  let moved := fun s0 => freePos (globals (fst (frame held dt s0))) in
  moved s
  = vadd (freePos g)
      (vscale (free_speed g * dt)
         (vadd (vadd (vscale (ind (held KEY_W) - ind (held KEY_S))
                             (mkVec3 (sin (freeYaw g)) 0 (- cos (freeYaw g))))
                     (vscale (ind (held KEY_D) - ind (held KEY_A))
                             (mkVec3 (cos (freeYaw g)) 0 (sin (freeYaw g)))))
               (vscale (ind (held KEY_Q) - ind (held KEY_E)) (mkVec3 0 1 0)))) /\
  (forall pitch, moved (on_globals (set_freePitch pitch) s) = moved s) /\
  free_speed (set_rmbDown true g) = 25 /\
  free_speed (set_rmbDown false g) = 8.
Proof.
  intros Hm g moved. subst moved. cbn beta.
  repeat split.
  - rewrite frame_free_pos by exact Hm. apply free_move_displacement.
  - intros pitch.
    rewrite !frame_free_pos; [| exact Hm |].
    + rewrite !free_move_displacement.
      destruct s as [g0 w ps]. now destruct g0.
    + destruct s as [g0 w ps]. cbn in *. now destruct g0.
Qed.

Lemma free_camera_moves_by_yaw_witness :
  let s := mkSim (set_camMode FREE initGlobals) initWorld false in
  camMode (globals s) = FREE /\
  freePos (globals (fst (frame held_W 1 s))) = mkVec3 0 10 52.
Proof.
  intros s. split; [reflexivity |].
  destruct (free_camera_moves_by_yaw held_W 1 s eq_refl) as [H _].
  rewrite H. subst s.
  unfold free_speed, set_camMode, initGlobals, vadd, vscale, ind, held_W. cbn.
  rewrite sin_0, cos_0. f_equal; ring.
Defined.

(** C9 fails: after the key 2, a press of the right button and a drag that
    pitches the free camera up by 30 degrees, a pass with W held moves the
    camera level, not along the look direction that yaw and pitch give. *)
Lemma free_forward_is_not_the_look_direction :
  let s := run [ EvKey KEY_2 PRESS; EvMouseButton BUTTON_RIGHT PRESS 0 0;
                 EvCursor 0 (- (PI / 6) * 500) ] initSim in
  let g := globals s in
  camMode g = FREE /\ freePitch g = PI / 6 /\
  freePos (globals (fst (frame held_W 1 s)))
  <> vadd (freePos g) (vscale (free_step g 1) (free_dir g)).
Proof.
  intros s g.
  assert (Hg : g = mkGlobals FREE true true false 1 45 (radians 0) (radians 15) 45
                     (mkVec3 0 10 60) 0 (PI / 6) true 0 (- (PI / 6) * 500) 0%Z 12).
  { subst g s.
    cbv [run fold_left step key_cb mouse_btn_cb cursor_cb].
    gcbv.
    replace (0 - (- (PI / 6) * 500 - 0) * 0.002) with (PI / 6) by lra.
    replace (0 + (0 - 0) * 0.002) with 0 by lra.
    unfold clamp, fmin, fmax, radians.
    pose proof PI_RGT_0 as Hpi.
    destruct (Rlt_dec (PI / 6) (-85 * (PI / 180))); [lra |].
    destruct (Rlt_dec (85 * (PI / 180)) (PI / 6)); [lra |].
    reflexivity. }
  assert (Hm : camMode (globals s) = FREE) by (fold g; now rewrite Hg).
  split; [exact Hm | split; [now rewrite Hg |]].
  rewrite frame_free_pos by exact Hm. rewrite free_move_displacement. fold g.
  clearbody g. clear Hm. subst g. intros H. apply (f_equal vy) in H.
  unfold free_step, free_speed, free_dir, ind, held_W in H. gcbv.
  rewrite sin_PI6 in H. lra.
Qed.

End FreeCameraClaims.

(** ** One orientation for two cameras *)
Section SharedOrientation.

Import Glm Scene Camera Terms.
#[local] Open Scope R_scope.

(** C10.  The ORBIT and the FOCUS camera are built from the one pair
    [camYaw], [camPitch]: the orbit eye is [camDist] along [view_dir], the
    focus eye is the target plus [focusDist] along the same [view_dir].  A
    drag writes that pair the same way in both modes, so what is dragged in
    one mode is what the other mode shows after the switch. *)
Theorem orbit_and_focus_share_yaw_pitch
    (g : Globals) (w : World) (held : Key -> bool) (dt x y : R) :
  let d := view_dir (camYaw g) (camPitch g) in
  snd (camera_build held dt w (set_camMode ORBIT g))
  = Some (mkView (vscale (camDist g) d) (mkVec3 0 0 0) (mkVec3 0 1 0)) /\
  (exists f, focus_body w g = Some f /\
     snd (camera_build held dt w (set_camMode FOCUS g))
     = Some (mkView (vadd (focus_target f) (vscale (focusDist g) d))
                    (focus_target f) (mkVec3 0 1 0))) /\
  (let gF := cursor_cb x y (set_camMode FOCUS g) in
   let gO := cursor_cb x y (set_camMode ORBIT g) in
   camYaw gF = camYaw gO /\ camPitch gF = camPitch gO /\
   orbitCamPos (key_cb KEY_1 PRESS gF) = orbitCamPos gO /\
   focus_offset (key_cb KEY_3 PRESS gO) = focus_offset gF) /\
  (let gF := cursor_cb x y (set_rmbDown true (set_camMode FOCUS g)) in
   camYaw (key_cb KEY_1 PRESS gF) = camYaw g + (x - lastX g) * 0.005 /\
   camPitch (key_cb KEY_1 PRESS gF)
   = clamp (camPitch g - (y - lastY g) * 0.005) (radians (-89)) (radians 89)).
Proof.
  intros d. subst d.
  destruct g as [mode so ss pa ts fov yaw pitch dist fp fy fpi rmb lx ly fi fd].
  repeat split.
  - unfold camera_build, set_camMode, orbitCamPos, view_dir, vscale. cbn.
    do 2 f_equal. f_equal; ring.
  - destruct (array_get_focus_array w (imax 0 (imin 8 fi)) (imax_imin_range fi))
      as [f Hf].
    exists f. split; [exact Hf |].
    unfold camera_build, set_camMode, focus_body. cbn. rewrite Hf.
    unfold focus_offset, view_dir, vadd, vscale. cbn.
    do 2 f_equal. f_equal; ring.
  - unfold cursor_cb. destruct rmb; reflexivity.
  - unfold cursor_cb. destruct rmb; reflexivity.
  - unfold cursor_cb. destruct rmb; reflexivity.
  - unfold cursor_cb. destruct rmb; reflexivity.
Qed.

End SharedOrientation.

(** * Further properties *)

(** ** The meshes: indices and vertices *)
Section MeshShape.

Import Glm MeshFactory Terms.

Lemma Forall_push_back {A : Type} (P : A -> Prop) (l : list A) (x : A) :
  Forall P l -> P x -> Forall P (push_back l x).
Proof.
  intros Hl Hx. unfold push_back. apply Forall_app. split; [exact Hl | now constructor].
Qed.

(** X1.  Every index that [buildSphere] emits names a vertex it emitted: it
    is at least 0 and below the number of vertices, whatever the counts. *)
Theorem sphere_indices_name_vertices (stacks slices : Z) (r : R) :
  Forall (fun k => 0 <= k < size (vertices (buildSphere stacks slices r)))
         (indices (buildSphere stacks slices r)).
Proof.
  cbn [buildSphere vertices indices]. rewrite sphere_vertices_size.
  unfold sphere_indices.
  set (P := fun k => 0 <= k < Z.max 0 (stacks + 1) * Z.max 0 (slices + 1)).
  apply (for_lt_invariant (fun _ idx => Forall P idx)); [constructor |].
  intros i idx Hi Hidx.
  apply (for_lt_invariant (fun _ idx' => Forall P idx')); [exact Hidx |].
  intros j idx' Hj Hidx'.
  repeat apply Forall_push_back; try exact Hidx'; unfold P; nia.
Qed.

(** X2.  The same for [buildRing] and [buildOrbitLine]: every index is at
    least 0 and below the number of vertices, whatever the count. *)
Theorem ring_and_line_indices_name_vertices (segments : Z) (innerR outerR r : R) :
  Forall (fun k => 0 <= k < size (vertices (buildRing segments innerR outerR)))
         (indices (buildRing segments innerR outerR)) /\
  Forall (fun k => 0 <= k < size (vertices (buildOrbitLine segments r)))
         (indices (buildOrbitLine segments r)).
Proof.
  split.
  - destruct (ring_sizes segments innerR outerR) as [Hv _]. rewrite Hv. clear Hv.
    unfold buildRing.
    set (P := fun k => 0 <= k < 2 * Z.max 0 (segments + 1)).
    match goal with |- context [for_le segments ?b ?s] =>
      pose proof (for_le_invariant (fun _ st => Forall P (snd st)) b segments s) as H
    end.
    destruct (for_le segments _ _) as [v idx]. cbn [indices snd] in *.
    apply H; [constructor |].
    intros i [v' idx'] Hi Hidx. cbn [snd] in *.
    destruct (Z.ltb_spec i segments); cbn [snd]; [| exact Hidx].
    repeat apply Forall_push_back; try exact Hidx; unfold P; lia.
  - destruct (orbit_line_shape segments r) as (Hv & _ & _). rewrite Hv. clear Hv.
    unfold buildOrbitLine.
    set (P := fun k => 0 <= k < Z.max 0 segments).
    match goal with |- context [for_lt segments ?b ?s] =>
      pose proof (for_lt_invariant (fun _ st => Forall P (snd st)) b segments s) as H
    end.
    destruct (for_lt segments _ _) as [pts idx]. cbn [indices snd] in *.
    apply H; [constructor |].
    intros i [pts' idx'] Hi Hidx. cbn [snd] in *.
    repeat apply Forall_push_back; try exact Hidx; unfold P.
    + lia.
    + pose proof (Z.rem_bound_pos (i + 1) segments ltac:(lia) ltac:(lia)). lia.
Qed.

Lemma counters_succ (i : Z) :
  0 <= i -> counters (i + 1) = counters i ++ [i].
Proof.
  intros Hi. unfold counters.
  replace (Z.to_nat (i + 1)) with (S (Z.to_nat i)) by lia.
  rewrite seq_S, map_app. cbn [map Nat.add]. now rewrite Z2Nat.id.
Qed.

(** X3.  The index list of [buildOrbitLine] is the closed line through its
    points: the pairs (0,1), (1,2), ..., (n-2,n-1), (n-1,0) in this order. *)
Theorem orbit_line_is_closed (segments : Z) (r : R) :
  indices (buildOrbitLine segments r) = closed_line segments.
Proof.
  unfold buildOrbitLine.
  match goal with |- context [for_lt segments ?b ?s] =>
    pose proof (for_lt_invariant
      (fun i st => snd st = flat_map (fun i => [i; Z.rem (i + 1) segments])
                                     (counters i)) b segments s) as H
  end.
  destruct (for_lt segments _ _) as [pts idx]. cbn [indices snd] in *.
  unfold closed_line.
  replace (counters segments) with (counters (Z.max 0 segments)).
  - apply H; [reflexivity |].
    intros i [pts' idx'] Hi Hidx. cbn [snd] in *.
    rewrite counters_succ by lia. rewrite flat_map_app, <- Hidx.
    unfold push_back. rewrite <- app_assoc. reflexivity.
  - unfold counters. f_equal. f_equal. lia.
Qed.

Lemma cos_sin_sq (x : R) : (cos x * cos x + sin x * sin x = 1)%R.
Proof. pose proof (sin2_cos2 x) as H. unfold Rsqr in H. lra. Qed.

Lemma on_circle_cos_sin (r th : R) :
  on_circle r (mkVec3 (r * cos th) 0 (r * sin th)).
Proof.
  unfold on_circle. cbn [vx vy vz]. split; [reflexivity |].
  pose proof (cos_sin_sq th) as H.
  replace (r * cos th * (r * cos th) + r * sin th * (r * sin th))%R
    with (r * r * (cos th * cos th + sin th * sin th))%R by ring.
  rewrite H. ring.
Qed.

Lemma fraction_unit_range (i count : Z) :
  0 <= i <= count -> 1 <= count -> unit_range (fraction i count).
Proof.
  intros Hi Hc. unfold unit_range, fraction, Rdiv.
  assert (Hpos : (0 < IZR count)%R) by (apply IZR_lt; lia).
  assert (Hinv : (0 < / IZR count)%R) by now apply Rinv_0_lt_compat.
  assert (H0 : (0 <= IZR i)%R) by (apply IZR_le; lia).
  assert (H1 : (IZR i <= IZR count)%R) by (apply IZR_le; lia).
  assert (Hone : (IZR count * / IZR count = 1)%R) by (apply Rinv_r; lra).
  split; nra.
Qed.

Lemma normalize_unit (v : vec3) : dot v v = 1%R -> normalize v = v.
Proof.
  intros H. unfold normalize. rewrite H, sqrt_1, Rinv_1.
  destruct v as [x y z]. unfold vscale. cbn [vx vy vz]. f_equal; ring.
Qed.

Lemma orbit_line_on_circle (segments : Z) (r : R) :
  Forall (on_circle r) (vertices (buildOrbitLine segments r)).
Proof.
  unfold buildOrbitLine.
  match goal with |- context [for_lt segments ?b ?s] =>
    pose proof (for_lt_invariant (fun _ st => Forall (on_circle r) (fst st))
                  b segments s) as H
  end.
  destruct (for_lt segments _ _) as [pts idx]. cbn [vertices fst] in *.
  apply H; [constructor |].
  intros i [pts' idx'] Hi Hpts. cbn [fst] in *.
  apply Forall_push_back; [exact Hpts | apply on_circle_cos_sin].
Qed.

(** X4.  Every point of [buildOrbitLine segments r] lies in the plane y = 0
    on the circle of radius [r] about the vertical axis. *)
Theorem orbit_line_points_on_circle (segments : Z) (r : R) :
  Forall (on_circle r) (vertices (buildOrbitLine segments r)).
Proof. apply orbit_line_on_circle. Qed.

(** X5.  For [segments >= 1], every vertex of [buildRing] has the normal
    (0,1,0) and a texture coordinate u in [0,1]; it lies in the plane y = 0,
    on the outer circle when its v is 1 and on the inner circle when its v
    is 0. *)
Theorem ring_vertices_on_two_circles (segments : Z) (innerR outerR : R) :
  1 <= segments ->
  Forall (fun v => n v = mkVec3 0 1 0 /\ unit_range (ux (uv v)) /\
                   ((uy (uv v) = 1%R /\ on_circle outerR (p v)) \/
                    (uy (uv v) = 0%R /\ on_circle innerR (p v))))
         (vertices (buildRing segments innerR outerR)).
Proof.
  intros Hseg. unfold buildRing.
  match goal with |- context [for_le segments ?b ?s] =>
    pose proof (for_le_invariant
      (fun _ st => Forall (fun v => n v = mkVec3 0 1 0 /\ unit_range (ux (uv v)) /\
                     ((uy (uv v) = 1%R /\ on_circle outerR (p v)) \/
                      (uy (uv v) = 0%R /\ on_circle innerR (p v)))) (fst st))
      b segments s) as H
  end.
  destruct (for_le segments _ _) as [v idx]. cbn [vertices fst] in *.
  apply H; [constructor |].
  intros i [v' idx'] Hi Hv. cbn [fst] in *.
  assert (Hu : unit_range (fraction i segments))
    by (apply fraction_unit_range; lia).
  assert (Hpush : forall idx0 : list Z, Forall
            (fun v => n v = mkVec3 0 1 0 /\ unit_range (ux (uv v)) /\
               ((uy (uv v) = 1%R /\ on_circle outerR (p v)) \/
                (uy (uv v) = 0%R /\ on_circle innerR (p v))))
            (push_back
               (push_back v'
                  (mkVtx (mkVec3 (outerR * cos (fraction i segments * (2 * PI))) 0
                                 (outerR * sin (fraction i segments * (2 * PI))))
                         (mkVec3 0 1 0) (mkVec2 (fraction i segments) 1)))
               (mkVtx (mkVec3 (innerR * cos (fraction i segments * (2 * PI))) 0
                              (innerR * sin (fraction i segments * (2 * PI))))
                      (mkVec3 0 1 0) (mkVec2 (fraction i segments) 0)))).
  { intros _. repeat apply Forall_push_back; try exact Hv; cbn [n uv p ux uy].
    - split; [reflexivity | split; [exact Hu | left]].
      split; [reflexivity | apply on_circle_cos_sin].
    - split; [reflexivity | split; [exact Hu | right]].
      split; [reflexivity | apply on_circle_cos_sin]. }
  destruct (Z.ltb_spec i segments); cbn [fst]; apply Hpush; exact [].
Qed.

Lemma ring_vertices_on_two_circles_witness :
  1 <= 256 /\
  Forall (fun v => n v = mkVec3 0 1 0 /\ unit_range (ux (uv v)) /\
                   ((uy (uv v) = 1%R /\ on_circle 3.2 (p v)) \/
                    (uy (uv v) = 0%R /\ on_circle 1.8 (p v))))
         (vertices (buildRing 256 1.8 3.2)).
Proof. split; [lia | apply (ring_vertices_on_two_circles 256 1.8 3.2); lia]. Defined.

Lemma sphere_direction_unit (phi th : R) :
  dot (mkVec3 (sin phi * cos th) (cos phi) (sin phi * sin th))
      (mkVec3 (sin phi * cos th) (cos phi) (sin phi * sin th)) = 1%R.
Proof.
  unfold dot. cbn [vx vy vz].
  pose proof (cos_sin_sq th) as Hth. pose proof (cos_sin_sq phi) as Hphi.
  replace (sin phi * cos th * (sin phi * cos th) + cos phi * cos phi
           + sin phi * sin th * (sin phi * sin th))%R
    with (sin phi * sin phi * (cos th * cos th + sin th * sin th)
          + cos phi * cos phi)%R by ring.
  rewrite Hth. lra.
Qed.

Lemma sphere_vertex_facts (stacks slices : Z) (r : R) :
  1 <= stacks -> 1 <= slices ->
  Forall (fun v => dot (n v) (n v) = 1%R /\ p v = vscale r (n v) /\
                   dot (p v) (p v) = (r * r)%R /\
                   unit_range (ux (uv v)) /\ unit_range (uy (uv v)))
         (vertices (buildSphere stacks slices r)).
Proof.
  intros Hst Hsl. cbn [buildSphere vertices]. unfold sphere_vertices.
  set (P := fun v : Vtx => dot (n v) (n v) = 1%R /\ p v = vscale r (n v) /\
                   dot (p v) (p v) = (r * r)%R /\
                   unit_range (ux (uv v)) /\ unit_range (uy (uv v))).
  apply (for_le_invariant (fun _ v => Forall P v)); [constructor |].
  intros i v Hi Hv.
  apply (for_le_invariant (fun _ v' => Forall P v')); [exact Hv |].
  intros j v' Hj Hv'.
  apply Forall_push_back; [exact Hv' |].
  pose proof (sphere_direction_unit (fraction i stacks * PI)
                (fraction j slices * (2 * PI))) as Hunit.
  unfold P. cbn [n p uv ux uy]. rewrite (normalize_unit _ Hunit).
  split; [exact Hunit | split; [reflexivity | split; [| split]]].
  - unfold dot, vscale in *. cbn [vx vy vz] in *.
    match goal with |- (?a + ?b + ?c = _)%R =>
      replace (a + b + c)%R with (r * r * 1)%R; [ring |]
    end.
    rewrite <- Hunit. ring.
  - apply fraction_unit_range; lia.
  - pose proof (fraction_unit_range i stacks ltac:(lia) Hst) as [H0 H1].
    unfold unit_range. lra.
Qed.

(** X6.  For [stacks >= 1] and [slices >= 1], every vertex of [buildSphere]
    has a normal of length 1, sits at [r] times its normal, so at distance
    [|r|] from the centre, and has both texture coordinates in [0,1]. *)
Theorem sphere_vertices_on_the_sphere (stacks slices : Z) (r : R) :
  1 <= stacks -> 1 <= slices ->
  Forall (fun v => dot (n v) (n v) = 1%R /\ p v = vscale r (n v) /\
                   dot (p v) (p v) = (r * r)%R /\
                   unit_range (ux (uv v)) /\ unit_range (uy (uv v)))
         (vertices (buildSphere stacks slices r)).
Proof. apply sphere_vertex_facts. Qed.

Lemma sphere_vertices_on_the_sphere_witness :
  (1 <= 24 /\ 1 <= 48) /\
  Forall (fun v => dot (n v) (n v) = 1%R /\ p v = vscale 300 (n v) /\
                   dot (p v) (p v) = (300 * 300)%R /\
                   unit_range (ux (uv v)) /\ unit_range (uy (uv v)))
         (vertices (buildSphere 24 48 300)).
Proof. split; [lia | apply (sphere_vertices_on_the_sphere 24 48 300); lia]. Defined.

End MeshShape.

(** ** The bodies and where they are drawn *)
Section Orbits.

Import Glm Scene Camera Terms.
#[local] Open Scope R_scope.

Lemma constants_animate (adv : R) (w : World) :
  constants (animate adv w) = constants w.
Proof. reflexivity. Qed.

(** X7.  After any sequence of events the orbit radius, the orbit speed and
    the spin speed of each of the eleven bodies are the ones it was built
    with. *)
Theorem constants_never_change (es : list Event) :
  constants (world (run es initSim)) = constants initWorld.
Proof.
  apply (run_invariant (fun s => constants (world s) = constants initWorld));
    [| reflexivity].
  intros s [held dt | yoff | b a cx cy | x y | k a] Hs; cbn [step on_globals world];
    try exact Hs.
  rewrite frame_world. unfold tick. rewrite constants_animate. exact Hs.
Qed.

Lemma world_position_columns (a b c d : vec4) :
  world_position (mkMat4 a b c d) = mkVec3 (wx d) (wy d) (wz d).
Proof.
  destruct a, b, c, d. vec_unfold. f_equal; ring.
Qed.

Lemma rotate_keeps_position (m : mat4) (angle : R) (axis : vec3) :
  world_position (rotate m angle axis) = world_position m.
Proof.
  unfold rotate. rewrite world_position_columns.
  destruct m as [a b c d]. rewrite world_position_columns. reflexivity.
Qed.

Lemma turn_on_circle (r a : R) (v : vec3) :
  on_circle r v -> on_circle r (turn a v).
Proof.
  unfold on_circle. intros [Hy Hr]. rewrite turn_components.
  destruct v as [x y z]. cbn [vx vy vz] in *. split; [exact Hy |].
  pose proof (cos_sin_sq a) as Ha.
  replace ((cos a * x + sin a * z) * (cos a * x + sin a * z)
           + (- sin a * x + cos a * z) * (- sin a * x + cos a * z))
    with ((cos a * cos a + sin a * sin a) * (x * x + z * z)) by ring.
  rewrite Ha, Hr. ring.
Qed.

Lemma on_circle_axis (r : R) : on_circle r (mkVec3 r 0 0).
Proof. unfold on_circle. cbn [vx vy vz]. split; [reflexivity | ring]. Qed.

Lemma planet_centre (b : Planet) :
  world_position (planet_model b)
  = mkVec3 (orbitRadius b * cos (radians (orbitAngle b))) 0
           (- (orbitRadius b * sin (radians (orbitAngle b)))).
Proof.
  rewrite planet_model_position, orbit_frame_position, turn_components.
  cbn [vx vy vz]. f_equal; ring.
Qed.

(** X8.  Whatever its angles, a planet is drawn with its centre in the plane
    y = 0 at distance [orbitRadius] from the vertical axis through the sun;
    its spin does not move the centre. *)
Theorem planet_stays_on_its_orbit (b : Planet) :
  on_circle (orbitRadius b) (world_position (planet_model b)) /\
  world_position (planet_model b)
  = mkVec3 (orbitRadius b * cos (radians (orbitAngle b))) 0
           (- (orbitRadius b * sin (radians (orbitAngle b)))).
Proof.
  split; [| apply planet_centre].
  rewrite planet_model_position, orbit_frame_position.
  apply turn_on_circle, on_circle_axis.
Qed.

(** X9.  Whatever the four angles, a moon is drawn level with its planet
    (same y) at distance [orbitRadius] of the moon from the planet's centre. *)
Theorem moon_stays_on_its_orbit (b m : Planet) :
  on_circle (orbitRadius m)
            (vsub (world_position (moon_model b m)) (world_position (planet_model b))).
Proof.
  rewrite moon_model_position, planet_model_position.
  set (c := world_position (orbit_frame b)).
  set (d := turn _ (turn _ _)).
  assert (Hd : on_circle (orbitRadius m) d)
    by (subst d; do 2 apply turn_on_circle; apply on_circle_axis).
  replace (vsub (vadd c d) c) with d; [exact Hd |].
  destruct c, d. unfold vsub, vadd. cbn [vx vy vz]. f_equal; ring.
Qed.

(** X10.  The ring is drawn centred on its planet, whatever the tilt, and
    the sun is drawn centred on the origin, whatever its spin. *)
Theorem ring_and_sun_centres (b s : Planet) :
  world_position (ring_model b) = world_position (planet_model b) /\
  world_position (sun_model s) = mkVec3 0 0 0.
Proof.
  split.
  - unfold ring_model, planet_model. rewrite !rotate_keeps_position. reflexivity.
  - unfold sun_model. rewrite rotate_keeps_position. vec_unfold. f_equal; ring.
Qed.

(** X11.  The FOCUS camera always finds its body, and looks at the image
    of that body's drawn centre in the plane z = 0: the target has [+sin]
    where the model matrix has [-sin].  It looks at the body itself exactly
    when the body's centre has z = 0. *)
Theorem focus_camera_looks_at_the_mirror_image
    (g : Globals) (w : World) (held : Key -> bool) (dt : R) :
  exists f v,
    focus_body w g = Some f /\
    snd (camera_build held dt w (set_camMode FOCUS g)) = Some v /\
    target v = mirror_z (world_position (planet_model f)) /\
    (target v = world_position (planet_model f)
     <-> vz (world_position (planet_model f)) = 0).
Proof.
  destruct (array_get_focus_array w (imax 0 (imin 8 (focusIndex g)))
              (imax_imin_range (focusIndex g))) as [f Hf].
  exists f, (mkView (vadd (focus_target f) (focus_offset (set_camMode FOCUS g)))
                    (focus_target f) (mkVec3 0 1 0)).
  assert (Hmir : focus_target f = mirror_z (world_position (planet_model f))).
  { rewrite focus_target_mirrors_the_drawn_body, planet_centre.
    reflexivity. }
  split; [exact Hf | split; [| split]].
  - unfold camera_build, focus_body in *. destruct g. cbn [set_camMode camMode focusIndex] in *.
    now rewrite Hf.
  - exact Hmir.
  - cbn [target]. rewrite Hmir. unfold mirror_z.
    destruct (world_position (planet_model f)) as [x y z]. cbn [vx vy vz].
    split.
    + intros H. apply (f_equal vz) in H. cbn [vz] in H. lra.
    + intros H. rewrite H. f_equal. lra.
Qed.

Lemma animate_compose (a b : R) (w : World) :
  animate b (animate a w) = animate (a + b) w.
Proof.
  unfold animate, orbit_spin, spin.
  cbn [sun mercury venus earth moon mars jupiter saturn uranus neptune europa
       orbitRadius orbitSpeed spinSpeed orbitAngle spinAngle].
  f_equal; f_equal; ring.
Qed.

(** X12.  While paused a pass leaves every body exactly as it was; while
    running, two passes with time steps [dt1] and [dt2] at one time scale
    leave the bodies where one pass with [dt1 + dt2] leaves them. *)
Theorem ticks_add_up (ts dt1 dt2 : R) (w : World) :
  tick true ts dt1 w = w /\
  tick false ts dt2 (tick false ts dt1 w) = tick false ts (dt1 + dt2) w.
Proof.
  split.
  - unfold tick, advance, animate, orbit_spin, spin.
    destruct w as [[] [] [] [] [] [] [] [] [] [] []].
    cbn [sun mercury venus earth moon mars jupiter saturn uranus neptune europa
         orbitRadius orbitSpeed spinSpeed orbitAngle spinAngle].
    f_equal; f_equal; ring.
  - unfold tick, advance. rewrite animate_compose. f_equal. ring.
Qed.

End Orbits.

(** ** Field of view, time scale and pitch *)
Section Settings.

Import Glm Scene Camera Terms.
#[local] Open Scope R_scope.

Lemma clamp_id (x lo hi : R) : lo <= x <= hi -> clamp x lo hi = x.
Proof.
  intros [Hlo Hhi]. unfold clamp, fmin, fmax.
  destruct (Rlt_dec x lo); [lra |].
  destruct (Rlt_dec hi x); [lra | reflexivity].
Qed.

Lemma radians_le (a b : R) : a <= b -> radians a <= radians b.
Proof.
  intros H. unfold radians. pose proof PI_RGT_0 as Hpi.
  apply Rmult_le_compat_r; lra.
Qed.

(** Each callback leaves a field alone or stores a value it has just
    clamped. *)
Lemma scroll_cb_settings (yoff : R) (g : Globals) :
  (fovDeg (scroll_cb yoff g) = fovDeg g
   \/ exists x, fovDeg (scroll_cb yoff g) = clamp x 20 90) /\
  timeScale (scroll_cb yoff g) = timeScale g /\
  camPitch (scroll_cb yoff g) = camPitch g /\
  freePitch (scroll_cb yoff g) = freePitch g.
Proof.
  unfold scroll_cb.
  destruct g as [mode so ss pa ts fov yaw pitch dist fp fy fpi rmb lx ly fi fd].
  destruct mode; gcbv; repeat split; eauto.
Qed.

Lemma mouse_btn_cb_settings (b : MouseButton) (a : Action) (cx cy : R) (g : Globals) :
  fovDeg (mouse_btn_cb b a cx cy g) = fovDeg g /\
  timeScale (mouse_btn_cb b a cx cy g) = timeScale g /\
  camPitch (mouse_btn_cb b a cx cy g) = camPitch g /\
  freePitch (mouse_btn_cb b a cx cy g) = freePitch g.
Proof. destruct b, a, g; repeat split; reflexivity. Qed.

Lemma cursor_cb_settings (x y : R) (g : Globals) :
  fovDeg (cursor_cb x y g) = fovDeg g /\
  timeScale (cursor_cb x y g) = timeScale g /\
  (camPitch (cursor_cb x y g) = camPitch g
   \/ exists v, camPitch (cursor_cb x y g) = clamp v (radians (-89)) (radians 89)) /\
  (freePitch (cursor_cb x y g) = freePitch g
   \/ exists v, freePitch (cursor_cb x y g) = clamp v (radians (-85)) (radians 85)).
Proof.
  unfold cursor_cb.
  destruct g as [mode so ss pa ts fov yaw pitch dist fp fy fpi rmb lx ly fi fd].
  destruct rmb, mode; gcbv; repeat split; eauto.
Qed.

Lemma key_cb_settings (k : Key) (a : Action) (g : Globals) :
  (fovDeg (key_cb k a g) = fovDeg g
   \/ exists x, fovDeg (key_cb k a g) = clamp x 20 90) /\
  (timeScale (key_cb k a g) = timeScale g
   \/ timeScale (key_cb k a g) = fmax 0 (timeScale g - 0.25)
   \/ timeScale (key_cb k a g) = timeScale g + 0.25) /\
  camPitch (key_cb k a g) = camPitch g /\
  freePitch (key_cb k a g) = freePitch g.
Proof.
  destruct g as [mode so ss pa ts fov yaw pitch dist fp fy fpi rmb lx ly fi fd].
  destruct a, k; try destruct mode; cbv [key_cb]; gcbv; repeat split; eauto.
Qed.

Lemma frame_settings (held : Key -> bool) (dt : R) (s : Sim) :
  fovDeg (globals (fst (frame held dt s))) = fovDeg (globals s) /\
  timeScale (globals (fst (frame held dt s))) = timeScale (globals s) /\
  (exists v, camPitch (globals (fst (frame held dt s)))
             = clamp v (radians (-89)) (radians 89)) /\
  freePitch (globals (fst (frame held dt s))) = freePitch (globals s).
Proof.
  destruct (frame_footprint held dt s) as (b & yaw & pitch & pos & dist & H & _ & _).
  repeat split; try (rewrite H; now destruct (globals s)).
  unfold frame. destruct (camera_build held dt _ _) as [g2 view].
  cbn [fst globals]. unfold frame_clamp.
  exists (camPitch g2). now destruct g2.
Qed.

Lemma settings_invariant (es : list Event) :
  let g := globals (run es initSim) in
  20 <= fovDeg g <= 90 /\ 0 <= timeScale g /\ pitches_in_range g.
Proof.
  pose proof (radians_le (-89) 89 ltac:(lra)) as H89.
  pose proof (radians_le (-85) 85 ltac:(lra)) as H85.
  apply (run_invariant (fun s =>
           20 <= fovDeg (globals s) <= 90 /\ 0 <= timeScale (globals s) /\
           pitches_in_range (globals s))).
  - unfold pitches_in_range.
    intros s [held dt | yoff | b a cx cy | x y | k a] (Hf & Ht & Hc & Hp);
      cbn [step on_globals globals].
    + destruct (frame_settings held dt s) as (Ef & Et & [v Ec] & Ep).
      rewrite Ef, Et, Ec, Ep. repeat split; try lra; now apply clamp_bounds.
    + destruct (scroll_cb_settings yoff (globals s)) as ([Ef | [v Ef]] & Et & Ec & Ep);
        rewrite Ef, Et, Ec, Ep; repeat split; try lra;
        apply (clamp_bounds v 20 90); lra.
    + destruct (mouse_btn_cb_settings b a cx cy (globals s)) as (Ef & Et & Ec & Ep).
      rewrite Ef, Et, Ec, Ep. repeat split; lra.
    + destruct (cursor_cb_settings x y (globals s))
        as (Ef & Et & [Ec | [v Ec]] & [Ep | [u Ep]]);
        rewrite Ef, Et, Ec, Ep; repeat split; try lra;
        try (now apply clamp_bounds).
    + destruct (key_cb_settings k a (globals s))
        as ([Ef | [v Ef]] & [Et | [Et | Et]] & Ec & Ep);
        rewrite Ef, Et, Ec, Ep; repeat split; try lra;
        try (apply (clamp_bounds v 20 90); lra);
        try (apply fmax_bounds).
  - unfold pitches_in_range. cbn [initSim globals initGlobals fovDeg timeScale camPitch
      freePitch].
    pose proof (radians_le (-89) 15 ltac:(lra)) as Ha.
    pose proof (radians_le 15 89 ltac:(lra)) as Hb.
    pose proof (radians_le (-85) 0 ltac:(lra)) as Hc.
    pose proof (radians_le 0 85 ltac:(lra)) as Hd.
    rewrite radians_0 in Hc, Hd. repeat split; lra.
Qed.

(** X13.  After any sequence of events (scroll offsets of any size in FREE
    mode, the keys - and =, and all the rest) the field of view is in
    [20, 90] degrees. *)
Theorem fov_stays_clamped (es : list Event) :
  20 <= fovDeg (globals (run es initSim)) <= 90.
Proof. apply (settings_invariant es). Qed.

(** X14.  After any sequence of events the time scale is not negative: the
    key [ stops at 0, the key ] only adds. *)
Theorem time_scale_never_negative (es : list Event) :
  0 <= timeScale (globals (run es initSim)).
Proof. apply (settings_invariant es). Qed.

(** X15.  Between any two events the pitch of the ORBIT and FOCUS cameras is
    within 89 degrees of level and the pitch of the FREE camera within 85
    degrees, so neither camera is left looking straight up or down: the
    cosine of either pitch is positive. *)
Theorem pitches_stay_clamped (es : list Event) :
  let g := globals (run es initSim) in
  radians (-89) <= camPitch g <= radians 89 /\
  radians (-85) <= freePitch g <= radians 85 /\
  0 < cos (camPitch g) /\ 0 < cos (freePitch g).
Proof.
  intros g. destruct (settings_invariant es) as (_ & _ & Hc & Hp). fold g in Hc, Hp.
  pose proof PI_RGT_0 as Hpi.
  unfold radians in *.
  repeat split; try lra; apply cos_gt_0; lra.
Qed.

End Settings.

(** ** The cameras keep to themselves *)
Section Isolation.

Import Glm Scene Camera Terms.
#[local] Open Scope R_scope.

Lemma run_invariant_on (Q : Event -> Prop) (P : Sim -> Prop) :
  (forall s e, Q e -> P s -> P (step s e)) ->
  forall es s, Forall Q es -> P s -> P (run es s).
Proof.
  intros Hstep es. unfold run.
  induction es as [|e es IH]; intros s Hes Hs; cbn [fold_left].
  - exact Hs.
  - inversion Hes; subst. apply IH; [assumption |]. now apply Hstep.
Qed.

Lemma frame_free_globals (held : Key -> bool) (dt : R) (s : Sim) :
  camMode (globals s) = FREE ->
  exists b pos,
    globals (fst (frame held dt s))
    = frame_clamp (set_freePos pos (set_paused b (globals s))).
Proof.
  intros Hm. unfold frame.
  destruct (poll_space_footprint held (prevSpace s) (globals s)) as [b Hb].
  rewrite Hb.
  assert (Hm' : camMode (set_paused b (globals s)) = FREE)
    by (rewrite <- Hm; now destruct (globals s)).
  rewrite (nudge_free held _ Hm').
  unfold camera_build. rewrite Hm'. cbn [fst globals].
  destruct (free_move_footprint held dt (set_paused b (globals s))) as [pos Hp].
  exists b, pos. now rewrite Hp.
Qed.

Lemma free_mode_step (s : Sim) (e : Event) :
  camMode (globals s) = FREE -> mode_key e = false ->
  radians (-89) <= camPitch (globals s) <= radians 89 ->
  5 <= camDist (globals s) <= 400 ->
  camMode (globals (step s e)) = FREE /\
  orbit_camera (globals (step s e)) = orbit_camera (globals s).
Proof.
  intros Hm Hk Hp Hd.
  destruct e as [held dt | yoff | b a cx cy | x y | k a];
    cbn [step on_globals globals].
  - destruct (frame_free_globals held dt s Hm) as (b & pos & H). rewrite H.
    unfold frame_clamp, orbit_camera.
    destruct (globals s) as [mode so ss pa ts fov yaw pitch dist fp fy fpi rmb lx ly fi fd].
    gcbv. rewrite !clamp_id by assumption. split; [exact Hm | reflexivity].
  - unfold scroll_cb, orbit_camera.
    destruct (globals s) as [mode so ss pa ts fov yaw pitch dist fp fy fpi rmb lx ly fi fd].
    cbn [camMode] in Hm. subst mode. split; reflexivity.
  - unfold orbit_camera. destruct b, a, (globals s); split; first [exact Hm | reflexivity].
  - unfold cursor_cb, orbit_camera.
    destruct (globals s) as [mode so ss pa ts fov yaw pitch dist fp fy fpi rmb lx ly fi fd].
    cbn [camMode] in Hm. subst mode. destruct rmb; split; reflexivity.
  - unfold orbit_camera.
    destruct (globals s) as [mode so ss pa ts fov yaw pitch dist fp fy fpi rmb lx ly fi fd].
    cbn [camMode] in Hm. subst mode.
    destruct a, k; try discriminate Hk; split; reflexivity.
Qed.

Lemma orbit_camera_eq (g g' : Globals) :
  orbit_camera g = orbit_camera g' ->
  camPitch g = camPitch g' /\ camDist g = camDist g'.
Proof. unfold orbit_camera. intros H. inversion H. split; reflexivity. Qed.

Lemma orbit_ranges_reachable (es : list Event) :
  let g := globals (run es initSim) in
  radians (-89) <= camPitch g <= radians 89 /\ 5 <= camDist g <= 400.
Proof.
  intros g. destruct (settings_invariant es) as (_ & _ & Hc & _).
  split; [exact Hc |].
  apply (run_invariant (fun s => distances_in_range (globals s))).
  - intros s [held dt | yoff | b a cx cy | x y | k a] Hs; cbn [step on_globals globals].
    + now apply frame_distances.
    + now apply scroll_cb_distances.
    + now apply mouse_btn_cb_distances.
    + now apply cursor_cb_distances.
    + now apply key_cb_distances.
  - unfold distances_in_range. cbn [initSim globals initGlobals camDist focusDist]. lra.
Qed.

(** X16.  While the FREE camera is selected, nothing that happens (scrolls,
    drags, movement keys, passes of the frame loop, any key that does not
    select a mode) changes the yaw, pitch and distance of the ORBIT camera or
    the focus distance: they are there unchanged when the user switches
    back. *)
Theorem free_mode_leaves_the_orbit_camera (es0 es : list Event) :
  let s := run es0 initSim in
  camMode (globals s) = FREE ->
  Forall (fun e => mode_key e = false) es ->
  camMode (globals (run es s)) = FREE /\
  orbit_camera (globals (run es s)) = orbit_camera (globals s).
Proof.
  intros s Hm Hes.
  destruct (orbit_ranges_reachable es0) as [Hp Hd]. fold s in Hp, Hd.
  apply (run_invariant_on (fun e => mode_key e = false)
           (fun s' => camMode (globals s') = FREE /\
                      orbit_camera (globals s') = orbit_camera (globals s)));
    [| exact Hes | split; [exact Hm | reflexivity]].
  intros s' e He [Hm' Ho].
  destruct (orbit_camera_eq _ _ Ho) as [Ep Ed].
  assert (Hp' : radians (-89) <= camPitch (globals s') <= radians 89)
    by now rewrite Ep.
  assert (Hd' : 5 <= camDist (globals s') <= 400) by now rewrite Ed.
  destruct (free_mode_step s' e Hm' He Hp' Hd') as [H1 H2].
  split; [exact H1 | now rewrite H2].
Qed.

Lemma free_mode_leaves_the_orbit_camera_witness :
  let s := run [EvKey KEY_2 PRESS] initSim in
  let es := [EvScroll 3; EvFrame held_W 1; EvKey KEY_Z PRESS] in
  (camMode (globals s) = FREE /\ Forall (fun e => mode_key e = false) es) /\
  camMode (globals (run es s)) = FREE /\
  orbit_camera (globals (run es s)) = orbit_camera (globals s).
Proof.
  intros s es.
  assert (Hm : camMode (globals s) = FREE) by reflexivity.
  assert (Hes : Forall (fun e => mode_key e = false) es)
    by (repeat constructor).
  split; [split; assumption |].
  exact (free_mode_leaves_the_orbit_camera [EvKey KEY_2 PRESS] es Hm Hes).
Defined.

Lemma other_mode_step (s : Sim) (e : Event) :
  camMode (globals s) <> FREE -> free_key e = false ->
  camMode (globals (step s e)) <> FREE /\
  free_camera (globals (step s e)) = free_camera (globals s).
Proof.
  intros Hm Hk.
  destruct e as [held dt | yoff | b a cx cy | x y | k a];
    cbn [step on_globals globals].
  - unfold frame.
    destruct (poll_space_footprint held (prevSpace s) (globals s)) as [b Hb].
    destruct (nudge_footprint held (poll_space held (prevSpace s) (globals s)))
      as (yaw & pitch & Hn).
    rewrite Hn, Hb. clear Hn Hb.
    unfold camera_build, frame_clamp, free_camera.
    destruct (globals s) as [mode so ss pa ts fov y0 p0 dist fp fy fpi rmb lx ly fi fd].
    cbn [camMode] in Hm.
    destruct mode; [| contradiction |]; gcbv; split; first [exact Hm | reflexivity].
  - unfold scroll_cb, free_camera.
    destruct (globals s) as [mode so ss pa ts fov yaw pitch dist fp fy fpi rmb lx ly fi fd].
    cbn [camMode] in Hm.
    destruct mode; [| contradiction |]; gcbv; split; first [exact Hm | reflexivity].
  - unfold free_camera. destruct b, a, (globals s); split; first [exact Hm | reflexivity].
  - unfold cursor_cb, free_camera.
    destruct (globals s) as [mode so ss pa ts fov yaw pitch dist fp fy fpi rmb lx ly fi fd].
    cbn [camMode] in Hm.
    destruct rmb, mode; try contradiction; gcbv; split; first [exact Hm | reflexivity].
  - unfold free_camera.
    destruct (globals s) as [mode so ss pa ts fov yaw pitch dist fp fy fpi rmb lx ly fi fd].
    cbn [camMode] in Hm.
    destruct a, k; try discriminate Hk; destruct mode; try contradiction;
      cbv [key_cb]; gcbv; split; first [exact Hm | discriminate | reflexivity].
Qed.

(** X17.  While the ORBIT or the FOCUS camera is selected, from any state,
    nothing that happens short of the key 2 changes the position, yaw or
    pitch of the FREE camera: the movement keys nudge the orbit camera
    instead and the drag turns it. *)
Theorem other_modes_leave_the_free_camera (s : Sim) (es : list Event) :
  camMode (globals s) <> FREE ->
  Forall (fun e => free_key e = false) es ->
  camMode (globals (run es s)) <> FREE /\
  free_camera (globals (run es s)) = free_camera (globals s).
Proof.
  intros Hm Hes.
  apply (run_invariant_on (fun e => free_key e = false)
           (fun s' => camMode (globals s') <> FREE /\
                      free_camera (globals s') = free_camera (globals s)));
    [| exact Hes | split; [exact Hm | reflexivity]].
  intros s' e He [Hm' Hf].
  destruct (other_mode_step s' e Hm' He) as [H1 H2].
  split; [exact H1 | now rewrite H2].
Qed.

Lemma other_modes_leave_the_free_camera_witness :
  let es := [EvKey KEY_3 PRESS; EvScroll (-4); EvFrame held_W 1;
             EvMouseButton BUTTON_RIGHT PRESS 0 0; EvCursor 10 20] in
  (camMode (globals initSim) <> FREE /\ Forall (fun e => free_key e = false) es) /\
  camMode (globals (run es initSim)) <> FREE /\
  free_camera (globals (run es initSim)) = free_camera (globals initSim).
Proof.
  intros es.
  assert (Hm : camMode (globals initSim) <> FREE) by discriminate.
  assert (Hes : Forall (fun e => free_key e = false) es) by (repeat constructor).
  split; [split; assumption |].
  exact (other_modes_leave_the_free_camera initSim es Hm Hes).
Defined.

End Isolation.

(** ** Pause, view and drag *)
Section Interaction.

Import Glm Scene Camera Terms.
#[local] Open Scope R_scope.

Lemma frame_prevSpace (held : Key -> bool) (dt : R) (s : Sim) :
  prevSpace (fst (frame held dt s)) = held KEY_SPACE.
Proof. unfold frame. now destruct (camera_build held dt _ _). Qed.

Lemma frame_paused (held : Key -> bool) (dt : R) (s : Sim) :
  paused (globals (fst (frame held dt s)))
  = paused (poll_space held (prevSpace s) (globals s)).
Proof.
  destruct (frame_footprint held dt s) as (b & yaw & pitch & pos & dist & H & _ & Hb).
  rewrite H, <- Hb. now destruct (globals s).
Qed.

Lemma frames_space_kept_down (held : Key -> bool) (dts : list R) (s : Sim) :
  held KEY_SPACE = true -> prevSpace s = true ->
  paused (globals (run (map (EvFrame held) dts) s)) = paused (globals s) /\
  prevSpace (run (map (EvFrame held) dts) s) = true.
Proof.
  intros Hh. revert s. induction dts as [|dt dts IH]; intros s Hp.
  - split; [reflexivity | exact Hp].
  - cbn [map]. change (run (?e :: ?es) s) with (run es (step s e)). cbn [step].
    destruct (IH (fst (frame held dt s))) as [H1 H2].
    + now rewrite frame_prevSpace.
    + rewrite H1, H2, frame_paused. unfold poll_space. rewrite Hh, Hp.
      split; reflexivity.
Qed.

(** X18.  The space key toggles the pause once per press: over any number
    of passes during which it stays down (one at least, the key having been
    up before) the pause flag flips exactly once; a pass with the key up
    leaves the flag alone and makes the next press count again. *)
Theorem space_toggles_once_per_press
    (held up : Key -> bool) (dt dt' : R) (dts : list R) (s : Sim) :
  held KEY_SPACE = true -> up KEY_SPACE = false -> prevSpace s = false ->
  let s1 := run (map (EvFrame held) (dt :: dts)) s in
  let s2 := fst (frame up dt' s1) in
  paused (globals s1) = negb (paused (globals s)) /\
  paused (globals s2) = paused (globals s1) /\
  prevSpace s2 = false.
Proof.
  intros Hh Hu Hp s1 s2.
  assert (H1 : paused (globals s1) = negb (paused (globals s))).
  { subst s1. cbn [map]. change (run (?e :: ?es) s) with (run es (step s e)).
    cbn [step].
    destruct (frames_space_kept_down held dts (fst (frame held dt s)) Hh) as [H _].
    - now rewrite frame_prevSpace.
    - rewrite H, frame_paused. unfold poll_space. rewrite Hh, Hp.
      now destruct (globals s). }
  split; [exact H1 | split].
  - subst s2. rewrite frame_paused. unfold poll_space. now rewrite Hu.
  - subst s2. now rewrite frame_prevSpace.
Qed.

Lemma space_toggles_once_per_press_witness :
  let held := fun k => match k with KEY_SPACE => true | _ => false end in
  let up := fun _ : Key => false in
  (held KEY_SPACE = true /\ up KEY_SPACE = false /\ prevSpace initSim = false) /\
  paused (globals (run (map (EvFrame held) [1; 1; 1]) initSim)) = true.
Proof.
  intros held up. split; [repeat split |].
  destruct (space_toggles_once_per_press held up 1 1 [1; 1] initSim
              eq_refl eq_refl eq_refl) as [H _].
  exact H.
Defined.

Lemma view_dir_unit (yaw pitch : R) :
  dot (view_dir yaw pitch) (view_dir yaw pitch) = 1.
Proof.
  unfold view_dir, dot. cbn [vx vy vz].
  pose proof (cos_sin_sq yaw) as Hy. pose proof (cos_sin_sq pitch) as Hp.
  replace (cos pitch * sin yaw * (cos pitch * sin yaw) + sin pitch * sin pitch
           + cos pitch * cos yaw * (cos pitch * cos yaw))
    with (cos pitch * cos pitch * (cos yaw * cos yaw + sin yaw * sin yaw)
          + sin pitch * sin pitch) by ring.
  rewrite Hy. lra.
Qed.

Lemma dot_vscale (d : R) (v : vec3) :
  dot (vscale d v) (vscale d v) = d * d * dot v v.
Proof. destruct v. unfold dot, vscale. cbn [vx vy vz]. ring. Qed.

Lemma orbitCamPos_view_dir (g : Globals) :
  orbitCamPos g = vscale (camDist g) (view_dir (camYaw g) (camPitch g)).
Proof. unfold orbitCamPos, view_dir, vscale. cbn [vx vy vz]. f_equal; ring. Qed.

Lemma focus_offset_view_dir (g : Globals) :
  focus_offset g = vscale (focusDist g) (view_dir (camYaw g) (camPitch g)).
Proof. unfold focus_offset, view_dir, vscale. cbn [vx vy vz]. f_equal; ring. Qed.

Lemma free_dir_unit (g : Globals) : dot (free_dir g) (free_dir g) = 1.
Proof.
  unfold free_dir, dot. cbn [vx vy vz].
  pose proof (cos_sin_sq (freeYaw g)) as Hy.
  pose proof (cos_sin_sq (freePitch g)) as Hp.
  replace (cos (freePitch g) * sin (freeYaw g) * (cos (freePitch g) * sin (freeYaw g))
           + sin (freePitch g) * sin (freePitch g)
           + - cos (freePitch g) * cos (freeYaw g)
             * (- cos (freePitch g) * cos (freeYaw g)))
    with (cos (freePitch g) * cos (freePitch g)
          * (cos (freeYaw g) * cos (freeYaw g) + sin (freeYaw g) * sin (freeYaw g))
          + sin (freePitch g) * sin (freePitch g)) by ring.
  rewrite Hy. lra.
Qed.

(** X19.  The camera build always yields a view, in every mode and for every
    focus index, with the up vector (0,1,0).  The eye is at distance
    [camDist] from the target in ORBIT mode, [focusDist] in FOCUS mode and 1
    in FREE mode. *)
Theorem view_keeps_its_distance
    (held : Key -> bool) (dt : R) (w : World) (g : Globals) :
  exists v,
    snd (camera_build held dt w g) = Some v /\
    up v = mkVec3 0 1 0 /\
    dot (vsub (eye v) (target v)) (vsub (eye v) (target v))
    = match camMode g with
      | ORBIT => camDist g * camDist g
      | FOCUS => focusDist g * focusDist g
      | FREE => 1
      end.
Proof.
  unfold camera_build. destruct (camMode g) eqn:Hm.
  - eexists. split; [reflexivity | split; [reflexivity |]].
    cbn [snd eye target]. rewrite orbitCamPos_view_dir.
    replace (vsub (vscale (camDist g) (view_dir (camYaw g) (camPitch g)))
                  (mkVec3 0 0 0))
      with (vscale (camDist g) (view_dir (camYaw g) (camPitch g))).
    + rewrite dot_vscale, view_dir_unit. ring.
    + unfold vsub, vscale. cbn [vx vy vz]. f_equal; ring.
  - eexists. split; [reflexivity | split; [reflexivity |]].
    cbn [snd eye target].
    set (g' := free_move held dt g).
    replace (vsub (freePos g') (vadd (freePos g') (free_dir g')))
      with (vscale (-1) (free_dir g')).
    + rewrite dot_vscale, free_dir_unit. ring.
    + destruct (freePos g'), (free_dir g'). unfold vsub, vadd, vscale.
      cbn [vx vy vz]. f_equal; ring.
  - destruct (array_get_focus_array w (imax 0 (imin 8 (focusIndex g)))
                (imax_imin_range (focusIndex g))) as [f Hf].
    unfold focus_body. rewrite Hf.
    eexists. split; [reflexivity | split; [reflexivity |]].
    cbn [snd eye target]. rewrite focus_offset_view_dir.
    replace (vsub (vadd (focus_target f)
                        (vscale (focusDist g) (view_dir (camYaw g) (camPitch g))))
                  (focus_target f))
      with (vscale (focusDist g) (view_dir (camYaw g) (camPitch g))).
    + rewrite dot_vscale, view_dir_unit. ring.
    + destruct (focus_target f), (view_dir (camYaw g) (camPitch g)).
      unfold vsub, vadd, vscale. cbn [vx vy vz]. f_equal; ring.
Qed.

(** X20.  The forward and right vectors of the FREE camera are horizontal,
    of length 1 and at right angles; the look direction has length 1 and is
    cos(pitch) times forward plus sin(pitch) times up, so forward is the
    look direction laid flat. *)
Theorem free_camera_basis (g : Globals) :
  vy (free_fwd g) = 0 /\ vy (free_right g) = 0 /\
  dot (free_fwd g) (free_fwd g) = 1 /\
  dot (free_right g) (free_right g) = 1 /\
  dot (free_fwd g) (free_right g) = 0 /\
  dot (free_dir g) (free_dir g) = 1 /\
  free_dir g = vadd (vscale (cos (freePitch g)) (free_fwd g))
                    (vscale (sin (freePitch g)) (mkVec3 0 1 0)).
Proof.
  rewrite free_right_yaw. pose proof (cos_sin_sq (freeYaw g)) as Hy.
  unfold free_fwd, dot. cbn [vx vy vz].
  repeat split; try lra.
  - apply free_dir_unit.
  - unfold free_dir, vadd, vscale. cbn [vx vy vz]. f_equal; ring.
Qed.

End Interaction.

Section Controls.

Import Glm Scene Camera Terms.
#[local] Open Scope R_scope.

(** X21.  A drag is measured from where the right button went down: after a
    press at [(cx, cy)] the first cursor event at [(x, y)] turns the selected
    camera by the difference, whatever cursor position was stored before, and
    leaves the other camera's angles alone.  Once the button is released,
    cursor events change nothing. *)
Theorem drag_starts_at_the_press (g : Globals) (cx cy x y : R) :
  let g2 := cursor_cb x y (mouse_btn_cb BUTTON_RIGHT PRESS cx cy g) in
  let g3 := mouse_btn_cb BUTTON_RIGHT RELEASE x y g2 in
  match camMode g with
  | FREE =>
      freeYaw g2 = freeYaw g + (x - cx) * 0.002 /\
      freePitch g2 = clamp (freePitch g - (y - cy) * 0.002)
                           (radians (-85)) (radians 85) /\
      camYaw g2 = camYaw g /\ camPitch g2 = camPitch g
  | _ =>
      camYaw g2 = camYaw g + (x - cx) * 0.005 /\
      camPitch g2 = clamp (camPitch g - (y - cy) * 0.005)
                          (radians (-89)) (radians 89) /\
      freeYaw g2 = freeYaw g /\ freePitch g2 = freePitch g
  end /\
  forall x' y', cursor_cb x' y' g3 = g3.
Proof.
  destruct g as [mode so ss pa ts fov yaw pitch dist fp fy fpi rmb lx ly fi fd].
  destruct mode; cbv [cursor_cb mouse_btn_cb]; gcbv;
    repeat split; reflexivity.
Qed.

(** X22.  In real arithmetic, away from the ends of their ranges the
    paired keys undo each other: in FOCUS mode with the focus distance in
    [5, 398], Z then X and X then Z give back the state; in any mode, with
    the field of view in [21, 89], - then = and = then - give it back.
    (The rounding of the float sums is not modelled.) *)
Theorem paired_keys_undo (g : Globals) :
  (camMode g = FOCUS -> 5 <= focusDist g <= 398 ->
   key_cb KEY_X PRESS (key_cb KEY_Z PRESS g) = g /\
   key_cb KEY_Z PRESS (key_cb KEY_X PRESS g) = g) /\
  (21 <= fovDeg g <= 89 ->
   key_cb KEY_EQUAL PRESS (key_cb KEY_MINUS PRESS g) = g /\
   key_cb KEY_MINUS PRESS (key_cb KEY_EQUAL PRESS g) = g).
Proof.
  destruct g as [mode so ss pa ts fov yaw pitch dist fp fy fpi rmb lx ly fi fd].
  cbn [camMode focusDist fovDeg]. split.
  - intros Hm Hd. subst mode. cbv [key_cb]. gcbv.
    assert (E1 : fmin 400 (fmax 3 (fd - 2) + 2) = fd).
    { unfold fmin, fmax. destruct (Rlt_dec 3 (fd - 2));
        match goal with |- context [Rlt_dec ?u ?v] => destruct (Rlt_dec u v) end;
        lra. }
    assert (E2 : fmax 3 (fmin 400 (fd + 2) - 2) = fd).
    { unfold fmin, fmax. destruct (Rlt_dec (fd + 2) 400);
        match goal with |- context [Rlt_dec ?u ?v] => destruct (Rlt_dec u v) end;
        lra. }
    rewrite E1, E2. split; reflexivity.
  - intros Hf. cbv [key_cb]. gcbv.
    assert (E3 : clamp (clamp (fov - 1) 20 90 + 1) 20 90 = fov).
    { rewrite (clamp_id (fov - 1)) by lra. rewrite clamp_id by lra. lra. }
    assert (E4 : clamp (clamp (fov + 1) 20 90 - 1) 20 90 = fov).
    { rewrite (clamp_id (fov + 1)) by lra. rewrite clamp_id by lra. lra. }
    rewrite E3, E4. split; reflexivity.
Qed.

Lemma paired_keys_undo_witness :
  let g := set_camMode FOCUS initGlobals in
  let h := initGlobals in
  (camMode g = FOCUS /\ 5 <= focusDist g <= 398 /\ 21 <= fovDeg h <= 89) /\
  key_cb KEY_X PRESS (key_cb KEY_Z PRESS g) = g /\
  key_cb KEY_Z PRESS (key_cb KEY_X PRESS g) = g /\
  key_cb KEY_EQUAL PRESS (key_cb KEY_MINUS PRESS h) = h /\
  key_cb KEY_MINUS PRESS (key_cb KEY_EQUAL PRESS h) = h.
Proof.
  intros g h.
  assert (Hm : camMode g = FOCUS) by reflexivity.
  assert (Hd : 5 <= focusDist g <= 398)
    by (cbn [g set_camMode initGlobals focusDist]; lra).
  assert (Hf : 21 <= fovDeg h <= 89)
    by (cbn [h initGlobals fovDeg]; lra).
  split; [repeat split; first [exact Hm | apply Hd | apply Hf] |].
  destruct (paired_keys_undo g) as [Hzx _].
  destruct (paired_keys_undo h) as [_ Hfov].
  destruct (Hzx Hm Hd) as [H1 H2]. destruct (Hfov Hf) as [H3 H4].
  split; [exact H1 | split; [exact H2 | split; [exact H3 | exact H4]]].
Defined.

End Controls.

(** ** The HUD, the window and the FPS counter *)
Section Overlay.

Import Glm MeshFactory Hud Window Fps Terms.
#[local] Open Scope R_scope.

(** X23.  For a window of positive size, the HUD pass puts every point of
    its circle mesh on one horizontal line of the screen, 100 pixels below
    the top edge (y = 1 - 200/winH in clip space, w = 1), between the
    pixels 20 and 180: the mesh lies in the plane y = 0 and its extent in z
    goes to the depth, so the circle is drawn edge-on. *)
Theorem hud_circle_is_drawn_edge_on (winW winH : Z) :
  (0 < winW)%Z -> (0 < winH)%Z ->
  Forall (fun q =>
            let c := line_position (hud_mvp winW winH) q in
            wy c = 1 - 200 / IZR winH /\ ww c = 1 /\
            wx c = (200 + 160 * vx q) / IZR winW - 1 /\ -1 <= vx q <= 1 /\
            wz c = - vz q)
         (vertices hudCircle).
Proof.
  intros HW HH.
  assert (HWr : 0 < IZR winW) by (apply IZR_lt; lia).
  assert (HHr : 0 < IZR winH) by (apply IZR_lt; lia).
  unfold hudCircle.
  eapply Forall_impl; [| apply (orbit_line_on_circle 128 1)].
  intros [x y z] [Hy Hr]. cbn [vx vy vz] in *. subst y.
  unfold line_position, hud_mvp, hud_model, mat4_mul, ortho, scale.
  cbn [ux uy]. vec_unfold.
  repeat split; try (field; lra); nra.
Qed.

Lemma hud_circle_is_drawn_edge_on_witness :
  ((0 < 1280)%Z /\ (0 < 720)%Z) /\
  Forall (fun q =>
            let c := line_position (hud_mvp 1280 720) q in
            wy c = 1 - 200 / 720 /\ ww c = 1 /\
            wx c = (200 + 160 * vx q) / 1280 - 1 /\ -1 <= vx q <= 1 /\
            wz c = - vz q)
         (vertices hudCircle).
Proof. split; [lia | apply (hud_circle_is_drawn_edge_on 1280 720); lia]. Defined.

(** X24.  Switching to fullscreen and back restores the window: from a
    windowed state, two calls of [toggle_fullscreen] leave the window at the
    position and size it had, and the flag off; in between the window covers
    the monitor at the size of its video mode. *)
Theorem fullscreen_twice_restores_the_window
    (mon : Monitor) (t : Tracking) (win : Win) :
  fullscreen t = false -> fullscreenOn win = false ->
  let once := toggle_fullscreen mon (t, win) in
  let twice := toggle_fullscreen mon once in
  fullscreen (fst once) = true /\
  snd once = mkWin (monX mon) (monY mon) (vmWidth mon) (vmHeight mon) true /\
  fullscreen (fst twice) = false /\
  snd twice = win.
Proof.
  intros Ht Hw. destruct t as [fs sx sy sw sh], win as [px py w h on].
  cbn [Window.fullscreen fullscreenOn] in *. subst fs on.
  repeat split; reflexivity.
Qed.

Lemma fullscreen_twice_restores_the_window_witness :
  let mon := mkMonitor 0 0 1920 1080 60 in
  let win := mkWin 40 60 1280 720 false in
  (fullscreen initTracking = false /\ fullscreenOn win = false) /\
  snd (toggle_fullscreen mon (toggle_fullscreen mon (initTracking, win))) = win.
Proof.
  intros mon win. split; [split; reflexivity |].
  destruct (fullscreen_twice_restores_the_window mon initTracking win
              eq_refl eq_refl) as (_ & _ & _ & H).
  exact H.
Defined.

Lemma total_nonneg (dts : list R) : Forall (fun dt => 0 <= dt) dts -> 0 <= total dts.
Proof.
  induction 1 as [|dt dts Hdt _ IH]; cbn [total fold_right]; [lra |].
  unfold total in IH. lra.
Qed.

Lemma fps_run_below (dts : list R) :
  Forall (fun dt => 0 <= dt) dts ->
  forall c, fpsAccum c + total dts < 0.5 ->
  fps_run dts c = mkCounter (fpsAccum c + total dts)
                            (fpsFrames c + Z.of_nat (length dts))
                            (fpsValue c).
Proof.
  induction 1 as [|dt dts Hdt Hdts IH]; intros c Hc.
  - cbn [fps_run fold_left total fold_right length Z.of_nat].
    destruct c as [a n v]. cbn [fpsAccum fpsFrames fpsValue]. f_equal; [lra | lia].
  - pose proof (total_nonneg dts Hdts) as Hpos.
    cbn [total fold_right] in Hc. fold (total dts) in Hc.
    change (fps_run (dt :: dts) c) with (fps_run dts (fps_step c dt)).
    unfold fps_step. destruct (Rge_dec (fpsAccum c + dt) 0.5) as [Hge | Hlt]; [lra |].
    rewrite IH by (cbn [fpsAccum]; lra).
    cbn [fpsAccum fpsFrames fpsValue total fold_right length].
    fold (total dts). f_equal; [lra | lia].
Qed.

(** X25.  The FPS counter reports frames over time: starting from a fresh
    count, if the time steps of some passes are non-negative and add up to
    less than half a second, and the next step brings the sum to half a
    second or more, then that pass stores the number of passes divided by
    the sum of their steps, and starts a fresh count. *)
Theorem fps_is_frames_over_time (dts : list R) (dt v0 : R) :
  Forall (fun d => 0 <= d) dts ->
  total dts < 0.5 -> 0.5 <= total dts + dt ->
  fps_run (dts ++ [dt]) (mkCounter 0 0 v0)
  = mkCounter 0 0 (IZR (Z.of_nat (length dts) + 1) / (total dts + dt)).
Proof.
  intros Hpos Hlt Hge. unfold fps_run. rewrite fold_left_app.
  pose proof (fps_run_below dts Hpos (mkCounter 0 0 v0)) as Hrun.
  unfold fps_run in Hrun. rewrite Hrun by (cbn [fpsAccum]; lra). clear Hrun.
  cbn [fold_left fpsAccum fpsFrames fpsValue]. unfold fps_step.
  cbn [fpsAccum fpsFrames fpsValue].
  destruct (Rge_dec (0 + total dts + dt) 0.5) as [_ | Hn]; [| lra].
  f_equal.
  replace (0 + Z.of_nat (length dts) + 1)%Z with (Z.of_nat (length dts) + 1)%Z by lia.
  replace (0 + total dts + dt) with (total dts + dt) by lra.
  reflexivity.
Qed.

Lemma fps_is_frames_over_time_witness :
  (Forall (fun d => 0 <= d) [0.2; 0.2] /\ total [0.2; 0.2] < 0.5 /\
   0.5 <= total [0.2; 0.2] + 0.2) /\
  fps_run ([0.2; 0.2] ++ [0.2]) (mkCounter 0 0 0)
  = mkCounter 0 0 (IZR (Z.of_nat (length [0.2; 0.2]) + 1) / (total [0.2; 0.2] + 0.2)).
Proof.
  assert (H1 : Forall (fun d => 0 <= d) [0.2; 0.2]) by (repeat constructor; lra).
  assert (H2 : total [0.2; 0.2] < 0.5) by (cbn [total fold_right]; lra).
  assert (H3 : 0.5 <= total [0.2; 0.2] + 0.2) by (cbn [total fold_right]; lra).
  split; [repeat split; assumption |].
  exact (fps_is_frames_over_time [0.2; 0.2] 0.2 0 H1 H2 H3).
Defined.

End Overlay.

(** ** The sky dome and the guide lines *)
Section Passes.

Import Glm MeshFactory Scene Camera Hud Terms.
#[local] Open Scope R_scope.

(** X26.  The sky pass draws its dome about the point [eye] in a space
    whose view matrix is the identity: every dome vertex is put at [eye]
    plus its own position, at distance 300 from [eye].  The viewpoint of
    that space is its origin, and in ORBIT mode [eye] is at distance
    [camDist] from the origin: the dome surrounds the viewpoint only while
    [camDist] is below 300. *)
Theorem sky_dome_is_centred_on_the_eye (e : vec3) (g : Globals) :
  Forall (fun v =>
            let q := view_pos sky_view (sky_model e) (p v) in
            ww q = 1 /\
            mkVec3 (wx q) (wy q) (wz q) = vadd e (p v) /\
            dot (vsub (mkVec3 (wx q) (wy q) (wz q)) e)
                (vsub (mkVec3 (wx q) (wy q) (wz q)) e) = 300 * 300)
         (vertices skyMesh) /\
  dot (orbitCamPos g) (orbitCamPos g) = camDist g * camDist g.
Proof.
  split.
  - unfold skyMesh.
    eapply Forall_impl;
      [| apply (sphere_vertex_facts 24 48 300); lia].
    intros v (_ & _ & Hr & _). destruct (p v) as [x y z]. destruct e as [ex ey ez].
    unfold view_pos, frag_pos, sky_view, sky_model. vec_unfold.
    repeat split.
    + ring.
    + f_equal; ring.
    + rewrite <- Hr. ring.
  - rewrite orbitCamPos_view_dir, dot_vscale, view_dir_unit. ring.
Qed.

(** X27.  The guide lines are where the planets go: after any sequence of
    events, each of the eight planets handed to [drawPlanet] has its centre
    on the very circle that all points of its guide line lie on. *)
Theorem guide_lines_follow_the_planets (es : list Event) :
  Forall2 (fun b L => exists r,
             on_circle r (world_position (planet_model b)) /\
             Forall (on_circle r) (vertices L))
          (drawn_planets (world (run es initSim))) orbitLines.
Proof.
  assert (Hk : constants (world (run es initSim)) = constants initWorld).
  { apply (run_invariant (fun s => constants (world s) = constants initWorld));
      [| reflexivity].
    intros s [held dt | yoff | b a cx cy | x y | k a] Hs; cbn [step on_globals world];
      try exact Hs.
    rewrite frame_world. unfold tick. rewrite constants_animate. exact Hs. }
  assert (Hb : forall b : Planet,
             on_circle (orbitRadius b) (world_position (planet_model b))).
  { intros b. rewrite planet_model_position, orbit_frame_position.
    apply turn_on_circle, on_circle_axis. }
  unfold constants, bodies, initWorld, planet in Hk.
  cbn [map sun mercury venus earth moon mars jupiter saturn uranus neptune europa
       orbitRadius orbitSpeed spinSpeed] in Hk.
  injection Hk as _ _ _ Hme _ _ Hve _ _ Hea _ _ _ _ _ Hma _ _ Hju _ _ Hsa _ _ Hur _ _
    Hne _ _ _ _ _.
  unfold drawn_planets, orbitLines.
  repeat constructor.
  - exists 6. rewrite <- Hme. split; [apply Hb | rewrite Hme; apply orbit_line_on_circle].
  - exists 9. rewrite <- Hve. split; [apply Hb | rewrite Hve; apply orbit_line_on_circle].
  - exists 12. rewrite <- Hea. split; [apply Hb | rewrite Hea; apply orbit_line_on_circle].
  - exists 15. rewrite <- Hma. split; [apply Hb | rewrite Hma; apply orbit_line_on_circle].
  - exists 20. rewrite <- Hju. split; [apply Hb | rewrite Hju; apply orbit_line_on_circle].
  - exists 26. rewrite <- Hsa. split; [apply Hb | rewrite Hsa; apply orbit_line_on_circle].
  - exists 32. rewrite <- Hur. split; [apply Hb | rewrite Hur; apply orbit_line_on_circle].
  - exists 38. rewrite <- Hne. split; [apply Hb | rewrite Hne; apply orbit_line_on_circle].
Qed.

End Passes.
